(** * A shallow embedding of the simux discrete-event simulation core

    Files embedded: [datatypes.py] (Entity, Event, Resource),
    [modules.py] (SeizeModule, BatchModule, module counters) and
    [environment.py] (Environment.run_simulation, add_event).

    Modelling choices:
    - Python floats used as simulation times are modelled as exact
      rationals [Q]; every concrete input used below consists of small
      integers, on which float arithmetic is exact.
    - Python ints are [Z] (resource counts) or [nat] (indices produced by
      [itertools.count]).
    - A Python exception is the [Raise] branch of [Result].
    - [heapq] is modelled by its interface: a heap is a list, [heappush]
      adds an element and [heappop] removes an element that is smallest for
      the tuple order of its entries; [heap[0]] is that same element.
      The model compares the leading keys of the tuples only. Python
      compares whole tuples: when two entries tie on their leading keys it
      goes on to an [Entity], [Event] or bound method, which define no
      order, and [<] raises [TypeError] unless the two are equal. The
      model thus describes [heapq] on heaps without such ties; statements
      that depend on it say so ([tie_free] below).
    - A handler (a bound [process_event] method) is referred to by the
      index of the module that owns it, the way an arena would. *)

From Stdlib Require Import QArith ZArith List String Lia Lqa Permutation Sorted.
From stdpp Require Import base gmap strings.
Import ListNotations.
Open Scope string_scope.
Open Scope Z_scope.

(* ------------------------------------------------------------------ *)
(** ** Python values, exceptions *)

(** Attribute values held in [Entity.attr]. *)
Inductive Val : Type :=
| VInt (z : Z)
| VStr (s : string).

#[global] Instance Val_eq_dec : EqDecision Val.
Proof. solve_decision. Defined.

Inductive Exc : Type :=
| ValueError
| TypeError
| KeyError
| IndexError
| ZeroDivisionError.

Inductive Result (A : Type) : Type :=
| Ok (a : A)
| Raise (e : Exc).
Arguments Ok {A} a.
Arguments Raise {A} e.

Definition bind {A B} (m : Result A) (k : A -> Result B) : Result B :=
  match m with
  | Ok a => k a
  | Raise e => Raise e
  end.

Notation "x <- m ;; k" := (bind m (fun x => k))
  (at level 100, m at next level, right associativity).

(* ------------------------------------------------------------------ *)
(** ** heapq, modelled by its interface *)

Section Heap.
Context {A : Type} (lt : A -> A -> bool).

(** Split off a smallest element of [x :: l] (the first one met among
    equal ones); the rest keeps the other elements. *)
Fixpoint extract_min (x : A) (l : list A) : A * list A :=
  match l with
  | [] => (x, [])
  | y :: l' =>
      if lt y x then
        let '(m, r) := extract_min y l' in (m, x :: r)
      else
        let '(m, r) := extract_min x l' in (m, y :: r)
  end.

Definition heappop (q : list A) : option (A * list A) :=
  match q with
  | [] => None
  | x :: l => Some (extract_min x l)
  end.

Definition heappush (q : list A) (x : A) : list A := q ++ [x].
End Heap.

Definition Qltb (a b : Q) : bool := negb (Qle_bool b a).

(** Lexicographic order on the leading keys of heap tuples. *)
Definition lex2 (a1 : Q) (b1 : nat) (a2 : Q) (b2 : nat) : bool :=
  Qltb a1 a2 || (Qeq_bool a1 a2 && Nat.ltb b1 b2).

Definition lex3 (a1 : Q) (b1 : Z) (c1 : nat) (a2 : Q) (b2 : Z) (c2 : nat) : bool :=
  Qltb a1 a2 ||
  (Qeq_bool a1 a2 && (Z.ltb b1 b2 || (Z.eqb b1 b2 && Nat.ltb c1 c2))).

(* ------------------------------------------------------------------ *)
(** ** Entities and events (datatypes.py) *)

Record Entity : Type := mkEntity {
  entity_type : string;
  arrival_time : Q;
  entity_ind : nat;
  attr : gmap string Val
}.

(** Modelled from the spec: [BatchEntity], which [modules.py] uses but whose
    class is not among the source files ("specialization of Entity with
    field batched_entities: ordered sequence of constituent Entities").
    A Python entity object is either a plain [Entity] or a [BatchEntity]. *)
Inductive AnyEntity : Type :=
| AsEntity (e : Entity)
| AsBatchEntity (e : Entity) (batched_entities : list Entity).

Definition core (x : AnyEntity) : Entity :=
  match x with
  | AsEntity e => e
  | AsBatchEntity e _ => e
  end.

Definition is_batch_entity (x : AnyEntity) : bool :=
  match x with
  | AsEntity _ => false
  | AsBatchEntity _ _ => true
  end.

(** The bound method [module.process_event], named by its module. *)
Inductive Handler : Type :=
| ProcessEvent (module : nat).

(** [Event.attr]: a dict whose keys, across the modules, are [wait_time],
    [delay_time] and [batch_entities]; an absent key is [None]. *)
Record EventAttr : Type := mkEventAttr {
  ev_wait_time : option Q;
  ev_delay_time : option Q;
  ev_batch_entities : option (list (Entity * Q))
}.

Definition empty_attr : EventAttr := mkEventAttr None None None.

(** [event_message] is diagnostic text built by f-strings; it is kept
    out of the model. *)
Record Event : Type := mkEvent {
  event_time : Q;
  event_name : string;
  event_handler : Handler;
  event_entity : AnyEntity;
  event_attr : EventAttr
}.

(* ------------------------------------------------------------------ *)
(** ** Resource (datatypes.py) *)

(** A waiting entry [(queue_entry_time, num_resources, entity_ind, entity,
    event_handler)]. *)
Definition QEntry : Type := (Q * Z * nat * AnyEntity * Handler)%type.

Definition qentry_lt (x y : QEntry) : bool :=
  let '(t1, d1, i1, _, _) := x in
  let '(t2, d2, i2, _, _) := y in
  lex3 t1 d1 i1 t2 d2 i2.

Record Resource : Type := mkResource {
  name : string;
  capacity : Z;
  queue : list QEntry;
  availability_log : list (Q * Z);
  available : Z
}.

(** [__post_init__]: [available] starts at [capacity]. *)
Definition new_resource (name : string) (capacity : Z) : Resource :=
  mkResource name capacity [] [] capacity.

Definition set_available (r : Resource) (a : Z) : Resource :=
  mkResource (name r) (capacity r) (queue r) (availability_log r) a.

Definition log_sample (r : Resource) (t : Q) : Resource :=
  mkResource (name r) (capacity r) (queue r)
    (availability_log r ++ [(t, available r)])%list (available r).

Definition set_queue (r : Resource) (q : list QEntry) : Resource :=
  mkResource (name r) (capacity r) q (availability_log r) (available r).

Definition queue_entity (r : Resource) (entity : AnyEntity) (num_resources : Z)
  (queue_entry_time : Q) (event_handler : Handler) : Resource :=
  set_queue r (heappush (queue r)
    (queue_entry_time, num_resources, entity_ind (core entity), entity,
     event_handler)).

(** Methods of [Resource] mutate [self] and may raise: they return the
    resource as it is when they return or raise, with the result. *)
Definition seize (r : Resource) (num_resources : Z) (seize_time : Q)
  : Resource * Result unit :=
  if available r - num_resources <? 0 then (r, Raise ValueError)
  else (log_sample (set_available r (available r - num_resources)) seize_time,
        Ok tt).

(** [release]: the head [self.queue[0]] is read, [self.seize(num_resources,
    release_time)] is called, then the head is popped. Reading the head and
    popping it are done here by one [heappop], which returns [queue[0]] and
    the rest; [seize] does not touch the queue. *)
Definition release (r : Resource) (num_resources : Z) (release_time : Q)
  : Resource * Result (option Event) :=
  if capacity r - available r <? num_resources then (r, Raise ValueError)
  else
    let r1 := log_sample (set_available r (available r + num_resources))
                release_time in
    match heappop qentry_lt (queue r1) with
    | None => (r1, Ok None)
    | Some ((_, required_resources, _, next_entity, event_handler), rest) =>
        if required_resources <=? available r1 then
          match seize r1 num_resources release_time with
          | (r2, Raise x) => (r2, Raise x)
          | (r2, Ok _) =>
              (set_queue r2 rest,
               Ok (Some (mkEvent release_time "Seize" event_handler next_entity
                           empty_attr)))
          end
        else (r1, Ok None)
    end.

(* ------------------------------------------------------------------ *)
(** ** System variables (modules.py) *)

(** One row of [sys_var['entity']['metrics']]. *)
Record Metrics : Type := mkMetrics {
  m_entity_type : string;
  m_value_added_time : Q;
  m_non_value_added_time : Q;
  m_wait_time : Q;
  m_transfer_time : Q;
  m_other_time : Q;
  m_created_at : option Q;
  m_disposed_at : option Q
}.

Record SysVar : Type := mkSysVar {
  sv_metrics : gmap nat Metrics;
  sv_trace : gmap nat (list (string * Q));
  sv_variables : gmap string Val
}.

(** [init_sys_var_entity]. *)
Definition init_sys_var_entity (sys_var : SysVar) (entity_type : string)
  (entity_ind : nat) : SysVar :=
  mkSysVar
    (<[entity_ind := mkMetrics entity_type 0 0 0 0 0 None None]>
       (sv_metrics sys_var))
    (<[entity_ind := []]> (sv_trace sys_var))
    (sv_variables sys_var).

(** [sys_var['entity']['trace'][ind].append((label, t))]; a missing key
    raises [KeyError]. *)
Definition trace_append (sys_var : SysVar) (ind : nat) (label : string) (t : Q)
  : Result SysVar :=
  match sv_trace sys_var !! ind with
  | None => Raise KeyError
  | Some l =>
      Ok (mkSysVar (sv_metrics sys_var)
            (<[ind := (l ++ [(label, t)])%list]> (sv_trace sys_var))
            (sv_variables sys_var))
  end.

(** [sys_var['entity']['metrics'][ind]['Wait Time'] += w]. *)
Definition add_wait_time (sys_var : SysVar) (ind : nat) (w : Q) : Result SysVar :=
  match sv_metrics sys_var !! ind with
  | None => Raise KeyError
  | Some m =>
      Ok (mkSysVar
            (<[ind := mkMetrics (m_entity_type m) (m_value_added_time m)
                        (m_non_value_added_time m) (m_wait_time m + w)
                        (m_transfer_time m) (m_other_time m)
                        (m_created_at m) (m_disposed_at m)]>
               (sv_metrics sys_var))
            (sv_trace sys_var) (sv_variables sys_var))
  end.

Definition wait_time_of (sys_var : SysVar) (ind : nat) : option Q :=
  m_wait_time <$> sv_metrics sys_var !! ind.

(* ------------------------------------------------------------------ *)
(** ** SeizeModule.process_event (modules.py) *)

Section SeizeModule.
(** [self.name] and the successor's [ingest_entity]; the successor does
    not receive [sys_var], so its effects on [sys_var] are none. *)
Variable seize_module_name : string.
Variable next_ingest_entity : AnyEntity -> Q -> Result (list Event).

Definition exit_label : string := "Exit " ++ seize_module_name.

(** [if 'wait_time' in event.attr: ... += event.attr['wait_time']]. *)
Definition add_event_wait (sys_var : SysVar) (ind : nat) (a : EventAttr)
  : Result SysVar :=
  match ev_wait_time a with
  | Some w => add_wait_time sys_var ind w
  | None => Ok sys_var
  end.

(** The loop over [event.event_entity.batched_entities]. *)
Fixpoint seize_constituents (sys_var : SysVar) (t : Q) (a : EventAttr)
  (es : list Entity) : Result SysVar :=
  match es with
  | [] => Ok sys_var
  | e :: es' =>
      sv1 <- trace_append sys_var (entity_ind e) exit_label t ;;
      sv2 <- add_event_wait sv1 (entity_ind e) a ;;
      seize_constituents sv2 t a es'
  end.

Definition seize_process_event (event : Event) (sys_var : SysVar)
  : Result (list Event * SysVar) :=
  let t := event_time event in
  let event_entity_ind := entity_ind (core (event_entity event)) in
  sv1 <- trace_append sys_var event_entity_ind exit_label t ;;
  sv2 <- add_event_wait sv1 event_entity_ind (event_attr event) ;;
  sv3 <- match event_entity event with
         | AsBatchEntity _ bs => seize_constituents sv2 t (event_attr event) bs
         | AsEntity _ => Ok sv2
         end ;;
  evs <- next_ingest_entity (event_entity event) t ;;
  Ok (evs, sv3).
End SeizeModule.

(* ------------------------------------------------------------------ *)
(** ** BatchModule.ingest_entity (modules.py) *)

(** Modelled from the spec: [BatchType], used by [modules.py] but declared
    outside the source files ("batch_type ∈ {ATTRIBUTE, ANY}"). *)
Inductive BatchType : Type :=
| ATTRIBUTE
| ANY.

(** The fields of a [BatchModule] that [ingest_entity] reads or writes;
    [next_module] is only used by [process_event]. *)
Record BatchModule : Type := mkBatchModule {
  batch_module_name : string;
  batch_type : BatchType;
  batch_size : Z;
  batch_attr : option string;
  batch_entity_type : option string;
  batch_queue : list (Entity * Q);
  batch_module_ind : nat
}.

Definition set_batch_queue (m : BatchModule) (q : list (Entity * Q)) : BatchModule :=
  mkBatchModule (batch_module_name m) (batch_type m) (batch_size m)
    (batch_attr m) (batch_entity_type m) q (batch_module_ind m).

(** [entity.attr[batch_attr]] when [batch_attr in entity.attr]; with
    [batch_attr = None] the test [None in attr] is false (keys are
    strings). *)
Definition attr_key (k : option string) (e : Entity) : option Val :=
  match k with
  | None => None
  | Some s => attr e !! s
  end.

(** The condition of the scan:
    [batch_attr in q_entity.attr and batch_attr in entity.attr and
     q_entity.attr[batch_attr] == entity.attr[batch_attr]]. *)
Definition attr_match (k : option string) (q_entity entity : Entity) : bool :=
  match attr_key k q_entity, attr_key k entity with
  | Some v1, Some v2 => bool_decide (v1 = v2)
  | _, _ => false
  end.

(** [for i, (q_entity, _) in enumerate(self.queue)]: returns the final
    [needed_to_batch] and [match_indices]. *)
Fixpoint scan_matches (k : option string) (entity : Entity)
  (q : list (Entity * Q)) (i : nat) (needed_to_batch : Z)
  (match_indices : list nat) : Z * list nat :=
  match q with
  | [] => (needed_to_batch, match_indices)
  | (q_entity, _) :: q' =>
      if attr_match k q_entity entity then
        let needed' := needed_to_batch - 1 in
        let matches' := (match_indices ++ [i])%list in
        if needed' =? 0 then (needed', matches')
        else scan_matches k entity q' (S i) needed' matches'
      else scan_matches k entity q' (S i) needed_to_batch match_indices
  end.

(** [del self.queue[i]]: out of range raises [IndexError]. *)
Definition del_at {A} (q : list A) (i : nat) : Result (list A) :=
  if Nat.ltb i (length q) then Ok (take i q ++ drop (S i) q)%list
  else Raise IndexError.

(** [for i in match_indices: del self.queue[i]], in that order. *)
Fixpoint del_all {A} (q : list A) (idx : list nat) : Result (list A) :=
  match idx with
  | [] => Ok q
  | i :: idx' => q' <- del_at q i ;; del_all q' idx'
  end.

(** [self.queue[i]] for an index taken from [enumerate(self.queue)]. *)
Definition queue_at (q : list (Entity * Q)) (dflt : Entity * Q) (i : nat)
  : Entity * Q := nth i q dflt.

Definition batch_event (m : BatchModule) (entity : Entity) (t : Q)
  (batch_entities : list (Entity * Q)) : Event :=
  mkEvent t "Batch" (ProcessEvent (batch_module_ind m)) (AsEntity entity)
    (mkEventAttr None None (Some batch_entities)).

Definition batch_ingest_entity (m : BatchModule) (entity : AnyEntity)
  (ingest_time : Q) : Result (BatchModule * list Event) :=
  match entity with
  | AsBatchEntity _ _ => Raise TypeError
  | AsEntity e =>
      match batch_type m with
      | ATTRIBUTE =>
          let '(needed_to_batch, match_indices) :=
            scan_matches (batch_attr m) e (batch_queue m) 0
              (batch_size m - 1) [] in
          if needed_to_batch =? 0 then
            let batch_entities :=
              (e, ingest_time)
                :: map (queue_at (batch_queue m) (e, ingest_time)) match_indices in
            q' <- del_all (batch_queue m) match_indices ;;
            Ok (set_batch_queue m q', [batch_event m e ingest_time batch_entities])
          else
            Ok (set_batch_queue m (batch_queue m ++ [(e, ingest_time)])%list, [])
      | ANY =>
          if Z.of_nat (length (batch_queue m)) >=? batch_size m - 1 then
            let n := Z.to_nat (batch_size m - 1) in
            let batch_entities :=
              (e, ingest_time) :: firstn n (batch_queue m) in
            Ok (set_batch_queue m (skipn n (batch_queue m)),
                [batch_event m e ingest_time batch_entities])
          else
            Ok (set_batch_queue m (batch_queue m ++ [(e, ingest_time)])%list, [])
      end
  end.

(* ------------------------------------------------------------------ *)
(** ** Resource.calc_utilization (datatypes.py) *)

(** [zip(self.availability_log, self.availability_log[1:])]. *)
Definition adjacent_samples (log : list (Q * Z)) : list ((Q * Z) * (Q * Z)) :=
  combine log (tl log).

(** Python's [/] on a zero [max_utilization] raises [ZeroDivisionError]. *)
Definition calc_utilization (r : Resource) (duration : Q) : Result Q :=
  let resource_utilization :=
    fold_left (fun acc '((t1, a1), (t2, _)) => acc + (t2 - t1) * inject_Z a1)%Q
      (adjacent_samples (availability_log r)) 0%Q in
  let max_utilization := (inject_Z (capacity r) * duration)%Q in
  if Qeq_bool max_utilization 0 then Raise ZeroDivisionError
  else Ok (resource_utilization / max_utilization)%Q.

(** The utilization as the spec describes it: the step function integrated
    over seized capacity [(capacity - a1)], divided by [capacity * duration]. *)
Definition seized_utilization (r : Resource) (duration : Q) : Q :=
  (fold_left
     (fun acc '((t1, a1), (t2, _)) =>
        acc + (t2 - t1) * inject_Z (capacity r - a1))%Q
     (adjacent_samples (availability_log r)) 0%Q
   / (inject_Z (capacity r) * duration))%Q.

(** Time covered by the log: last sample time minus first sample time. *)
Definition log_span (log : list (Q * Z)) : Q :=
  match log with
  | [] => 0%Q
  | (t0, a0) :: _ => (fst (List.last log (t0, a0)) - t0)%Q
  end.

(* ------------------------------------------------------------------ *)
(** ** Index counters: [field(default_factory=count().__next__)] *)

(** Modelled from the spec's module list: the kinds of module-graph node.
    Each class of [modules.py] evaluates its own [count()] when the class
    body runs, so each kind owns one counter. *)
Inductive ModuleKind : Type :=
| KCreate | KSeize | KDelay | KRelease | KAssign
| KDuplicate | KBatch | KSeparate | KDecide | KDispose.

#[global] Instance ModuleKind_eq_dec : EqDecision ModuleKind.
Proof. solve_decision. Defined.

(** [Entity.entity_ind] has one [count()] (a [BatchEntity], modelled from
    the spec as a subclass of [Entity], inherits the same field default). *)
Record Counters : Type := mkCounters {
  entity_counter : nat;
  module_counter : ModuleKind -> nat
}.

Definition initial_counters : Counters := mkCounters 0 (fun _ => 0%nat).

Inductive Construction : Type :=
| NewEntity
| NewModule (k : ModuleKind).

(** One constructor call: [__next__()] returns the counter's value and
    advances it. *)
Definition construct (c : Counters) (x : Construction) : nat * Counters :=
  match x with
  | NewEntity =>
      (entity_counter c, mkCounters (S (entity_counter c)) (module_counter c))
  | NewModule k =>
      (module_counter c k,
       mkCounters (entity_counter c)
         (fun k' => if decide (k' = k) then S (module_counter c k)
                    else module_counter c k'))
  end.

(** The indices assigned to a sequence of constructions, in order. *)
Fixpoint construct_all (c : Counters) (xs : list Construction)
  : list (Construction * nat) :=
  match xs with
  | [] => []
  | x :: xs' =>
      let '(i, c') := construct c x in (x, i) :: construct_all c' xs'
  end.

Definition entity_inds (l : list (Construction * nat)) : list nat :=
  map snd (List.filter (fun p => match fst p with NewEntity => true | _ => false end) l).

Definition module_inds (k : ModuleKind) (l : list (Construction * nat)) : list nat :=
  map snd (List.filter (fun p => match fst p with
                            | NewModule k' => bool_decide (k' = k)
                            | _ => false end) l).

(* ------------------------------------------------------------------ *)
(** ** Environment.run_simulation (environment.py) *)

(** A heap entry of [Environment.event_queue]:
    [(event.event_time, event.event_entity.entity_ind, event)]. When two
    entries agree on both keys Python goes on to compare the [Event]
    objects; the model takes the first smallest entry instead. *)
Definition QueuedEvent : Type := (Q * nat * Event)%type.

Definition event_entry_lt (x y : QueuedEvent) : bool :=
  let '(t1, i1, _) := x in
  let '(t2, i2, _) := y in
  lex2 t1 i1 t2 i2.

Record Environment : Type := mkEnvironment {
  event_queue : list QueuedEvent;
  system_attr : gmap nat (gmap string Val)
}.

(** [Environment.add_event]. *)
Definition add_event (q : list QueuedEvent) (event : Event) : list QueuedEvent :=
  heappush q (event_time event, entity_ind (core (event_entity event)), event).

(** [for event in new_events: self.add_event(event)]. *)
Definition add_events (q : list QueuedEvent) (evs : list Event) : list QueuedEvent :=
  fold_left add_event evs q.

(** [if updated_attr: self.system_attr.setdefault(ind, {}).update(updated_attr)];
    [dict.update] lets the new keys win, as the left-biased union does. *)
Definition update_system_attr (sa : gmap nat (gmap string Val)) (ind : nat)
  (updated_attr : gmap string Val) : gmap nat (gmap string Val) :=
  if bool_decide (updated_attr = ∅) then sa
  else <[ind := updated_attr ∪ default ∅ (sa !! ind)]> sa.

(** One iteration of the [while] loop: [Exit] when the condition fails,
    otherwise the popped event and the rest of the heap it was popped from,
    with the next state or the exception raised by the handler. *)
Inductive Step : Type :=
| Exit
| Crash (x : Exc) (e : Event) (rest : list QueuedEvent)
| Next (env : Environment) (e : Event) (rest : list QueuedEvent).

Inductive Outcome : Type :=
| Finished (env : Environment)
| Crashed (x : Exc)
| OutOfFuel (env : Environment).

Section RunSimulation.
(** [curr_event.event_handler(curr_event)] followed by the unpacking
    [new_events, updated_attr = ...]. *)
Variable invoke_handler : Event -> Result (list Event * gmap string Val).

Definition loop_step (duration : Q) (env : Environment) : Step :=
  match heappop event_entry_lt (event_queue env) with
  | None => Exit
  | Some ((_, _, curr_event), rest) =>
      if Qle_bool (event_time curr_event) duration then
        match invoke_handler curr_event with
        | Raise x => Crash x curr_event rest
        | Ok (new_events, updated_attr) =>
            Next (mkEnvironment (add_events rest new_events)
                    (update_system_attr (system_attr env)
                       (entity_ind (core (event_entity curr_event)))
                       updated_attr))
                 curr_event rest
        end
      else Exit
  end.

(** The loop, run for at most [fuel] iterations; besides the outcome it
    returns each popped event with the heap left after popping it. *)
Fixpoint run_loop (fuel : nat) (duration : Q) (env : Environment)
  : Outcome * list (Event * list QueuedEvent) :=
  match fuel with
  | O => (OutOfFuel env, [])
  | S fuel' =>
      match loop_step duration env with
      | Exit => (Finished env, [])
      | Crash x e rest => (Crashed x, [(e, rest)])
      | Next env' e rest =>
          let '(o, tr) := run_loop fuel' duration env' in (o, (e, rest) :: tr)
      end
  end.

(** [run_simulation]: [__populate_event_queue_arrivals] pushes the
    arrival events, then the loop runs. The metric table computed with
    pandas afterwards is not modelled. *)
Definition run_simulation (duration : Q) (arrivals : list Event) (fuel : nat)
  : Outcome * list (Event * list QueuedEvent) :=
  run_loop fuel duration (mkEnvironment (add_events [] arrivals) ∅).
End RunSimulation.

(** Positional arguments of a Python call. *)
Inductive PyArg : Type :=
| ArgEvent (e : Event)
| ArgSysVar (sv : SysVar).

Section ModuleHandlers.
(** The body of each module's [process_event(self, event, sys_var)],
    indexed by module; it returns the new events ([sys_var] is mutated in
    place). *)
Variable process_event_body : nat -> Event -> SysVar -> Result (list Event * SysVar).

(** Calling the bound method [module.process_event] with positional
    arguments: any other number of arguments than two raises
    [TypeError]. *)
Definition call_process_event (h : Handler) (args : list PyArg)
  : Result (list Event) :=
  match h, args with
  | ProcessEvent m, [ArgEvent e; ArgSysVar sv] =>
      r <- process_event_body m e sv ;; Ok (fst r)
  | _, _ => Raise TypeError
  end.

(** [new_events, updated_attr = <list of events>]: a list whose length is
    not two raises [ValueError]; with two events, [updated_attr] is an
    [Event], and [dict.update] / iteration over an [Event] raise
    [TypeError]. *)
Definition unpack_pair (ret : list Event) : Result (list Event * gmap string Val) :=
  if Nat.eqb (length ret) 2 then Raise TypeError else Raise ValueError.

(** What [run_simulation] does with a module's handler:
    [curr_event.event_handler(curr_event)], then the unpacking. *)
Definition invoke_module_handler (e : Event) : Result (list Event * gmap string Val) :=
  ret <- call_process_event (event_handler e) [ArgEvent e] ;;
  unpack_pair ret.
End ModuleHandlers.

(* ------------------------------------------------------------------ *)
(** ** Concrete inputs *)

(** A customer with index 7 that queued for the server at time 0. *)
Definition customer7 : Entity := mkEntity "Customer" 0 7 ∅.

(** A server of capacity 3 with 2 units seized ([available = 1]) and
    customer 7 waiting for 1 unit, queued by the Seize module with index 1. *)
Definition waiting_server : Resource :=
  mkResource "Server" 3 [(0%Q, 1, 7%nat, AsEntity customer7, ProcessEvent 1)] [] 1.

(** [sys_var] once customer 7 has been created. *)
Definition sys_var7 : SysVar :=
  init_sys_var_entity (mkSysVar ∅ ∅ ∅) "Customer" 7.

(** A person whose attribute ["k"] is [v]. *)
Definition tagged (i : nat) (v : Z) : Entity :=
  mkEntity "Person" 0 i (<["k" := VInt v]> ∅).

(** An attribute Batch module of size 3 on ["k"] whose queue holds
    persons 1 and 2 (k = 7, queued at 1 and 2) and person 3 (k = 8,
    queued at 3). *)
Definition batch3 : BatchModule :=
  mkBatchModule "Batch 1" ATTRIBUTE 3 (Some "k") None
    [(tagged 1 7, 1%Q); (tagged 2 7, 2%Q); (tagged 3 8, 3%Q)] 0.

(** A person without attributes. *)
Definition untagged (i : nat) : Entity := mkEntity "Person" 0 i ∅.

(** An attribute Batch module of size 1 on ["k"] whose queue holds person 1,
    who has no ["k"]. *)
Definition batch1 : BatchModule :=
  mkBatchModule "Batch 1" ATTRIBUTE 1 (Some "k") None [(untagged 1, 0%Q)] 0.

(** A server of capacity 1 that is fully seized from time 0 and free from
    time 10. *)
Definition busy_then_idle : Resource :=
  mkResource "Server" 1 [] [(0%Q, 0); (10%Q, 1)] 1.

(** A Create event at time 1 for customer 7, handled by module 0. *)
Definition arrival7 : Event :=
  mkEvent 1 "Create" (ProcessEvent 0) (AsEntity customer7) empty_attr.

(** A handler, as [run_simulation] calls it, that schedules nothing. *)
Definition no_new_events (e : Event) : Result (list Event * gmap string Val) :=
  Ok ([], ∅).

(** Handlers that schedule nothing before the time of the event they
    handle (the spec: "Events may schedule at the current or future
    time"). *)
Definition handler_not_earlier
  (invoke : Event -> Result (list Event * gmap string Val)) : Prop :=
  forall e evs upd, invoke e = Ok (evs, upd) ->
  Forall (fun e' => (event_time e <= event_time e')%Q) evs.

(** A heap entry as [add_event] builds it. *)
Definition entry_wf (x : QueuedEvent) : Prop :=
  let '(t, i, e) := x in
  t = event_time e /\ i = entity_ind (core (event_entity e)).

(** [e] comes no later than the queued entry [x] in (time, entity_ind)
    order. *)
Definition popped_before (e : Event) (x : QueuedEvent) : Prop :=
  let '(_, _, e') := x in
  (event_time e <= event_time e')%Q /\
  ((event_time e == event_time e')%Q ->
   (entity_ind (core (event_entity e)) <= entity_ind (core (event_entity e')))%nat).

(** Order of two popped events by time. *)
Definition time_le (p q : Event * list QueuedEvent) : Prop :=
  (event_time (fst p) <= event_time (fst q))%Q.

(** The loop body of [calc_utilization], with the sample value [a1]
    mapped through [g] ([g = id] in the code). *)
Definition step_integral (g : Z -> Z) (acc : Q) (p : (Q * Z) * (Q * Z)) : Q :=
  let '((t1, a1), (t2, _)) := p in (acc + (t2 - t1) * inject_Z (g a1))%Q.

(* ------------------------------------------------------------------ *)
(** ** Further methods of the modules and generators *)

(** The order of [Resource.queue] entries as [heapq] compares their
    leading keys [(queue_entry_time, num_resources, entity_ind)], as a
    non-strict lexicographic order. *)
Definition qentry_le (x y : QEntry) : Prop :=
  let '(t1, d1, i1, _, _) := x in
  let '(t2, d2, i2, _, _) := y in
  (t1 < t2)%Q \/ ((t1 == t2)%Q /\ (d1 < d2 \/ (d1 = d2 /\ (i1 <= i2)%nat))).

(** [SeizeModule.ingest_entity] of the Seize module with index
    [module_ind], on its [resource] and [num_resources]. *)
Definition seize_ingest_entity (resource : Resource) (num_resources : Z)
  (module_ind : nat) (entity : AnyEntity) (ingest_time : Q)
  : Resource * Result (list Event) :=
  if available resource <? num_resources then
    (queue_entity resource entity num_resources ingest_time
       (ProcessEvent module_ind), Ok [])
  else
    match seize resource num_resources ingest_time with
    | (r', Raise x) => (r', Raise x)
    | (r', Ok _) =>
        (r', Ok [mkEvent ingest_time "Seize" (ProcessEvent module_ind) entity
                   empty_attr])
    end.

(** [ReleaseModule.ingest_entity]: [if new_seize_event:] holds for any
    [Event] (a dataclass without [__bool__] or [__len__]). *)
Definition release_ingest_entity (resource : Resource) (num_resources : Z)
  (module_ind : nat) (entity : AnyEntity) (ingest_time : Q)
  : Resource * Result (list Event) :=
  match release resource num_resources ingest_time with
  | (r', Raise x) => (r', Raise x)
  | (r', Ok new_seize_event) =>
      let events := match new_seize_event with
                    | Some ev => [ev]
                    | None => []
                    end in
      (r', Ok (events ++ [mkEvent ingest_time "Release" (ProcessEvent module_ind)
                            entity empty_attr])%list)
  end.

(** The number of waiters of a Batch queue that the scan of
    [BatchModule.ingest_entity] accepts for [entity]. *)
Definition count_matches (k : option string) (entity : Entity)
  (q : list (Entity * Q)) : nat :=
  length (List.filter (fun p => attr_match k (fst p) entity) q).

(** The loop of the bounded generators returned by [exp_agg_generator],
    [tria_agg_generator], [uniform_agg_generator] and
    [const_agg_generator]:
    [time = start_time; while time < end_time: time += <draw>;
     if time <= end_time: yield time].
    The draws ([-1 / lambd * math.log(u)], [random.triangular(low, high)],
    [random.uniform(low, high)] or [const]) are given in the order the loop
    takes them; the list bounds how many iterations are run. A float is a
    rational, and [<] and [<=] on floats compare exactly; [time += draw]
    is float addition, the exact sum rounded to a float, which is the
    parameter [fadd] ([Qplus] is the exact instance). *)
Fixpoint agg_generator_bounded (fadd : Q -> Q -> Q) (draws : list Q)
  (time end_time : Q) : list Q :=
  match draws with
  | [] => []
  | d :: draws' =>
      if Qltb time end_time then
        let time' := fadd time d in
        if Qle_bool time' end_time then
          time' :: agg_generator_bounded fadd draws' time' end_time
        else agg_generator_bounded fadd draws' time' end_time
      else []
  end.

(** [CreateModule.generate_arrivals] of the Create module with index
    [module_ind], given the times its [arrival_generator] yields: each
    [Entity(...)] takes the next value of the [entity_ind] counter, which
    is returned advanced. *)
Fixpoint generate_arrivals (entity_counter module_ind : nat)
  (gen_entity_type : string) (arrivals : list Q) : list Event * nat :=
  match arrivals with
  | [] => ([], entity_counter)
  | arrival_time :: arrivals' =>
      let entity := mkEntity gen_entity_type arrival_time entity_counter ∅ in
      let '(arrival_events, c') :=
        generate_arrivals (S entity_counter) module_ind gen_entity_type arrivals' in
      (mkEvent arrival_time "Create" (ProcessEvent module_ind) (AsEntity entity)
         empty_attr :: arrival_events, c')
  end.

(** [sys_var['entity']['metrics'][ind][key] = t] for the keys
    ['Created At'] and ['Disposed At']; a missing [ind] raises
    [KeyError]. *)
Definition set_created_at (sys_var : SysVar) (ind : nat) (t : Q) : Result SysVar :=
  match sv_metrics sys_var !! ind with
  | None => Raise KeyError
  | Some m =>
      Ok (mkSysVar
            (<[ind := mkMetrics (m_entity_type m) (m_value_added_time m)
                        (m_non_value_added_time m) (m_wait_time m)
                        (m_transfer_time m) (m_other_time m)
                        (Some t) (m_disposed_at m)]> (sv_metrics sys_var))
            (sv_trace sys_var) (sv_variables sys_var))
  end.

Definition set_disposed_at (sys_var : SysVar) (ind : nat) (t : Q) : Result SysVar :=
  match sv_metrics sys_var !! ind with
  | None => Raise KeyError
  | Some m =>
      Ok (mkSysVar
            (<[ind := mkMetrics (m_entity_type m) (m_value_added_time m)
                        (m_non_value_added_time m) (m_wait_time m)
                        (m_transfer_time m) (m_other_time m)
                        (m_created_at m) (Some t)]> (sv_metrics sys_var))
            (sv_trace sys_var) (sv_variables sys_var))
  end.

(** [CreateModule.process_event] of the Create module named [name];
    [next_ingest_entity] is [self.next_module.ingest_entity]. *)
Definition create_process_event (name : string)
  (next_ingest_entity : AnyEntity -> Q -> Result (list Event))
  (event : Event) (sys_var : SysVar) : Result (list Event * SysVar) :=
  let event_entity_ind := entity_ind (core (event_entity event)) in
  let sv1 := init_sys_var_entity sys_var (entity_type (core (event_entity event)))
               event_entity_ind in
  sv2 <- set_created_at sv1 event_entity_ind (event_time event) ;;
  sv3 <- trace_append sv2 event_entity_ind ("Exit " ++ name) (event_time event) ;;
  evs <- next_ingest_entity (event_entity event) (event_time event) ;;
  Ok (evs, sv3).

(** The loop over [event.event_entity.batched_entities] of
    [DisposeModule.process_event]. *)
Fixpoint dispose_constituents (label : string) (t : Q) (sys_var : SysVar)
  (es : list Entity) : Result SysVar :=
  match es with
  | [] => Ok sys_var
  | e :: es' =>
      sv1 <- set_disposed_at sys_var (entity_ind e) t ;;
      sv2 <- trace_append sv1 (entity_ind e) label t ;;
      dispose_constituents label t sv2 es'
  end.

(** [DisposeModule.process_event] of the Dispose module named [name]. *)
Definition dispose_process_event (name : string) (event : Event)
  (sys_var : SysVar) : Result (list Event * SysVar) :=
  let t := event_time event in
  let event_entity_ind := entity_ind (core (event_entity event)) in
  sv1 <- set_disposed_at sys_var event_entity_ind t ;;
  sv2 <- trace_append sv1 event_entity_ind ("Exit " ++ name) t ;;
  sv3 <- match event_entity event with
         | AsBatchEntity _ bs => dispose_constituents ("Exit " ++ name) t sv2 bs
         | AsEntity _ => Ok sv2
         end ;;
  Ok ([], sv3).

(** The entities whose rows [DisposeModule.process_event] writes. *)
Definition disposed_inds (x : AnyEntity) : list nat :=
  entity_ind (core x) ::
  match x with
  | AsBatchEntity _ bs => map entity_ind bs
  | AsEntity _ => []
  end.

(** [sys_var] holds a metrics row and a trace for entity [ind]. *)
Definition has_entity_rows (sys_var : SysVar) (ind : nat) : Prop :=
  is_Some (sv_metrics sys_var !! ind) /\ is_Some (sv_trace sys_var !! ind).

(** An any-type Batch module of size 2 whose queue holds person 1, queued
    at 0. *)
Definition batch_any2 : BatchModule :=
  mkBatchModule "Batch 2" ANY 2 None None [(untagged 1, 0%Q)] 1.

(** An attribute Batch module of size 3 on ["k"] whose queue holds persons
    1 and 2, both with k = 7. *)
Definition batch_pair : BatchModule :=
  mkBatchModule "Batch 3" ATTRIBUTE 3 (Some "k") None
    [(tagged 1 7, 1%Q); (tagged 2 7, 2%Q)] 2.

(** A Create event at time 20 for customer 8. *)
Definition late_arrival : Event :=
  mkEvent 20 "Create" (ProcessEvent 0) (AsEntity (mkEntity "Customer" 20 8 ∅))
    empty_attr.

(** The row of entity [j] records [Disposed At = t]. *)
Definition disposed_at_is (sys_var : SysVar) (t : Q) (j : nat) : Prop :=
  exists m, sv_metrics sys_var !! j = Some m /\ m_disposed_at m = Some t.

(** Two waiting entries that the tuple comparison of [heapq] orders by
    their leading keys [(queue_entry_time, num_resources, entity_ind)]. *)
Definition keys_differ (x y : QEntry) : bool := qentry_lt x y || qentry_lt y x.

(** A resource queue in which no two entries tie on their leading keys:
    on such a queue [heapq] never compares the [Entity] objects or the
    bound methods of two entries. *)
Definition tie_free (q : list QEntry) : Prop :=
  ForallOrdPairs (fun x y => keys_differ x y = true) q.

(** Customers 8 and 9, who arrive at time 2. *)
Definition customer8 : Entity := mkEntity "Customer" 2 8 ∅.
Definition customer9 : Entity := mkEntity "Customer" 2 9 ∅.

(** A server of capacity 3 with 2 units seized ([available = 1]); customer
    8 (queued at 2) and customer 7 (queued at 0) wait for 1 unit each, in
    that list order. *)
Definition two_waiters : Resource :=
  mkResource "Server" 3
    [(2%Q, 1, 8%nat, AsEntity customer8, ProcessEvent 1);
     (0%Q, 1, 7%nat, AsEntity customer7, ProcessEvent 1)] [] 1.

(** Create events for customer 9 at time 2, customer 7 at time 1 and
    customer 8 at time 2, pushed in that order. *)
Definition arrivals_789 : list Event :=
  [mkEvent 2 "Create" (ProcessEvent 0) (AsEntity customer9) empty_attr;
   arrival7;
   mkEvent 2 "Create" (ProcessEvent 0) (AsEntity customer8) empty_attr].

(** A handler, as [run_simulation] calls it, that answers a Create event
    with a Depart event for the same entity two time units later, and
    schedules nothing for any other event. *)
Definition schedule_departure (e : Event) : Result (list Event * gmap string Val) :=
  if String.eqb (event_name e) "Create" then
    Ok ([mkEvent (event_time e + 2) "Depart" (event_handler e) (event_entity e)
           empty_attr], ∅)
  else Ok ([], ∅).

(* ------------------------------------------------------------------ *)
(** * Theorems *)

(* ------------------------------------------------------------------ *)
(** ** Resource: seize and release *)

Lemma seize_outcome (r : Resource) (n : Z) (t : Q) :
  (available r < n -> seize r n t = (r, Raise ValueError)) /\
  (n <= available r ->
   seize r n t =
   (mkResource (name r) (capacity r) (queue r)
      (availability_log r ++ [(t, available r - n)])%list (available r - n),
    Ok tt)).
Proof.
  unfold seize, log_sample, set_available; simpl.
  split; intros H; destruct (Z.ltb_spec (available r - n) 0); try lia; reflexivity.
Qed.

(** When [release] wakes the head of the queue, [available] ends where it
    was before the call: the internal [seize] takes back [num_resources]. *)
Lemma release_wake_available (r r' : Resource) (n : Z) (t : Q) (ev : Event) :
  release r n t = (r', Ok (Some ev)) -> available r' = available r.
Proof.
  unfold release.
  destruct (Z.ltb_spec (capacity r - available r) n); [discriminate|].
  destruct (heappop qentry_lt _) as [[[[[[? req] ?] ?] ?] rest]|];
    [|discriminate].
  destruct (req <=? _); [|discriminate].
  unfold seize, log_sample, set_available, set_queue; simpl.
  destruct (Z.ltb_spec (available r + n - n) 0); [discriminate|].
  intros [= <- _]; simpl; lia.
Qed.

(** C1 (code_bug): releasing 2 units of [waiting_server] at time 5 wakes
    customer 7, whose recorded demand is 1, and returns a [Seize] event at
    time 5 with customer 7's pending handler; but the internal [seize] takes
    the released amount 2, so [available] ends at 1, not at [1 + 2 - 1 = 2]
    as seizing the head's demand would leave it. *)
Lemma release_seizes_released_amount :
  match release waiting_server 2 5 with
  | (r', Ok (Some ev)) =>
      queue r' = [] /\
      event_time ev = 5%Q /\ event_name ev = "Seize" /\
      event_handler ev = ProcessEvent 1 /\
      event_entity ev = AsEntity customer7 /\
      available r' = 1 /\ available r' <> available waiting_server + 2 - 1
  | _ => False
  end.
Proof. vm_compute. repeat split; discriminate. Qed.

(** C2 (code_bug): the [Seize] event synthesized when [waiting_server]
    wakes customer 7 (queued at 0) at time 5 carries no [wait_time], so
    [SeizeModule.process_event] leaves customer 7's Wait Time at 0 instead
    of adding [5 - 0]. *)
Lemma release_wake_event_lacks_wait_time :
  match release waiting_server 2 5 with
  | (_, Ok (Some ev)) =>
      ev_wait_time (event_attr ev) = None /\
      match seize_process_event "Seize Server" (fun _ _ => Ok []) ev sys_var7 with
      | Ok (_, sv') => wait_time_of sv' 7 = Some 0%Q
      | Raise _ => False
      end
  | _ => False
  end.
Proof. vm_compute. split; reflexivity. Qed.

(** [SeizeModule.process_event] on a plain entity adds the event's
    [wait_time], when there is one, to the entity's Wait Time. *)
Lemma seize_process_event_adds_wait (nm : string)
  (next : AnyEntity -> Q -> Result (list Event)) (ev : Event) (sv : SysVar)
  (e : Entity) (w : Q) (m : Metrics) (tr : list (string * Q)) evs sv' :
  event_entity ev = AsEntity e ->
  ev_wait_time (event_attr ev) = Some w ->
  sv_metrics sv !! entity_ind e = Some m ->
  sv_trace sv !! entity_ind e = Some tr ->
  seize_process_event nm next ev sv = Ok (evs, sv') ->
  wait_time_of sv' (entity_ind e) = Some (m_wait_time m + w)%Q.
Proof.
  intros He Hw Hm Htr.
  unfold seize_process_event, trace_append, add_event_wait, add_wait_time.
  rewrite He, Hw; simpl. rewrite Htr; simpl. rewrite Hm; simpl.
  destruct (next _ _) as [evs'|x]; simpl; [|discriminate].
  intros [= _ <-]. unfold wait_time_of; simpl.
  rewrite lookup_insert_eq. reflexivity.
Qed.

(** C7 (counterexample): a successful [release] that wakes a queued
    entity appends two samples to the availability log, not one. *)
Lemma release_wake_logs_two_samples :
  match release waiting_server 2 5 with
  | (r', Ok _) =>
      availability_log waiting_server = [] /\
      availability_log r' = [(5%Q, 3); (5%Q, 1)]
  | _ => False
  end.
Proof. vm_compute. split; reflexivity. Qed.

(** From a state with [0 <= available]: the errors of [seize] and
    [release] and what they append to the availability log. *)
Lemma seize_release_outcome (r : Resource) (n : Z) (t : Q)
  (Havail : 0 <= available r) :
  (snd (seize r n t) = Raise ValueError <-> available r < n) /\
  (available r < n -> fst (seize r n t) = r) /\
  (n <= available r ->
   available (fst (seize r n t)) = available r - n /\
   availability_log (fst (seize r n t)) =
     (availability_log r ++ [(t, available r - n)])%list) /\
  ((exists x, snd (release r n t) = Raise x) <-> capacity r - available r < n) /\
  (capacity r - available r < n -> fst (release r n t) = r) /\
  (n <= capacity r - available r ->
   (snd (release r n t) = Ok None /\
    available (fst (release r n t)) = available r + n /\
    availability_log (fst (release r n t)) =
      (availability_log r ++ [(t, available r + n)])%list) \/
   (exists ev, snd (release r n t) = Ok (Some ev) /\
    available (fst (release r n t)) = available r /\
    availability_log (fst (release r n t)) =
      (availability_log r ++ [(t, available r + n); (t, available r)])%list)).
Proof.
  destruct (seize_outcome r n t) as [Hs1 Hs2].
  assert (Hrel : n <= capacity r - available r ->
    (snd (release r n t) = Ok None /\
     available (fst (release r n t)) = available r + n /\
     availability_log (fst (release r n t)) =
       (availability_log r ++ [(t, available r + n)])%list) \/
    (exists ev, snd (release r n t) = Ok (Some ev) /\
     available (fst (release r n t)) = available r /\
     availability_log (fst (release r n t)) =
       (availability_log r ++ [(t, available r + n); (t, available r)])%list)).
  { intros Hn. unfold release.
    destruct (Z.ltb_spec (capacity r - available r) n); [lia|].
    destruct (heappop qentry_lt _) as [[[[[[? req] ?] ?] ?] rest]|];
      [|left; simpl; auto].
    destruct (req <=? _); [|left; simpl; auto].
    unfold seize, log_sample, set_available, set_queue; simpl.
    destruct (Z.ltb_spec (available r + n - n) 0); [lia|].
    right. eexists. simpl. split; [reflexivity|].
    replace (available r + n - n) with (available r) by lia.
    split; [reflexivity|]. rewrite <- app_assoc. reflexivity. }
  split; [split|].
  - intros Hx. destruct (Z.lt_ge_cases (available r) n) as [H|H]; [exact H|].
    rewrite (Hs2 H) in Hx. discriminate.
  - intros H. rewrite (Hs1 H). reflexivity.
  - split; [intros H; rewrite (Hs1 H); reflexivity|].
    split; [intros H; rewrite (Hs2 H); split; reflexivity|].
    split; [split|].
    + intros [x Hx].
      destruct (Z.lt_ge_cases (capacity r - available r) n) as [H|H]; [exact H|].
      destruct (Hrel H) as [[H1 _]|[ev [H1 _]]]; congruence.
    + intros H. unfold release.
      destruct (Z.ltb_spec (capacity r - available r) n); [|lia].
      eexists. reflexivity.
    + split; [|exact Hrel].
      intros H. unfold release.
      destruct (Z.ltb_spec (capacity r - available r) n); [|lia].
      reflexivity.
Qed.

(** C8 (counterexample): a negative demand passes [seize]'s check and
    pushes [available] above [capacity]. *)
Lemma seize_negative_demand_exceeds_capacity :
  snd (seize (new_resource "Server" 1) (-1) 0) = Ok tt /\
  available (fst (seize (new_resource "Server" 1) (-1) 0)) = 2 /\
  capacity (new_resource "Server" 1) = 1.
Proof. vm_compute. repeat split. Qed.

(** C8 (amended): for a non-negative demand, a successful [seize] and a
    successful [release] (with the seize it performs when it wakes the
    queue head) keep [0 <= available <= capacity]. *)
Theorem seize_release_keep_bounds (r : Resource) (n : Z) (t : Q)
  (Hn : 0 <= n) (Hlo : 0 <= available r) (Hhi : available r <= capacity r) :
  (snd (seize r n t) = Ok tt ->
   0 <= available (fst (seize r n t)) <= capacity (fst (seize r n t))) /\
  (forall res, snd (release r n t) = Ok res ->
   0 <= available (fst (release r n t)) <= capacity (fst (release r n t))).
Proof.
  destruct (seize_release_outcome r n t Hlo)
    as (Hs & _ & Hs3 & Hr & _ & Hr6).
  split.
  - intros Hok. destruct (Z.lt_ge_cases (available r) n) as [H|H].
    + apply Hs in H. congruence.
    + destruct (Hs3 H) as [Ha _]. rewrite Ha.
      unfold seize, log_sample, set_available.
      destruct (available r - n <? 0); simpl; lia.
  - intros res Hok. destruct (Z.lt_ge_cases (capacity r - available r) n) as [H|H].
    + apply Hr in H. destruct H as [x Hx]. congruence.
    + assert (Hcap : capacity (fst (release r n t)) = capacity r).
      { unfold release. destruct (_ <? n); [reflexivity|].
        destruct (heappop _ _) as [[[[[[? ?] ?] ?] ?] ?]|]; [|reflexivity].
        destruct (_ <=? _); [|reflexivity].
        unfold seize. destruct (_ <? 0); reflexivity. }
      rewrite Hcap.
      destruct (Hr6 H) as [(_ & Ha & _)|(ev & _ & Ha & _)]; rewrite Ha; lia.
Qed.

Lemma seize_release_keep_bounds_witness :
  0 <= 1 /\ 0 <= available waiting_server <= capacity waiting_server /\
  (forall res, snd (release waiting_server 1 0) = Ok res ->
   0 <= available (fst (release waiting_server 1 0)) <=
     capacity (fst (release waiting_server 1 0))).
Proof.
  split; [lia|]. split; [vm_compute; split; discriminate|].
  apply (seize_release_keep_bounds waiting_server 1 0);
    vm_compute; try discriminate.
Defined.

(* ------------------------------------------------------------------ *)
(** ** BatchModule.ingest_entity, ATTRIBUTE *)

(** C5 (code_bug): person 4 (k = 7) arrives at time 4 at [batch3]. The
    scan matches persons 1 and 2 (indices 0 and 1) and the batch is
    [person 4, person 1, person 2] as claimed; but [del self.queue[0]] then
    [del self.queue[1]] on the shrinking deque removes persons 1 and 3, so
    the queue keeps the batched person 2 and loses the unmatched person 3. *)
Lemma batch_delete_shifts_indices :
  match batch_ingest_entity batch3 (AsEntity (tagged 4 7)) 4 with
  | Ok (m', [ev]) =>
      event_name ev = "Batch" /\ event_time ev = 4%Q /\
      ev_batch_entities (event_attr ev) =
        Some [(tagged 4 7, 4%Q); (tagged 1 7, 1%Q); (tagged 2 7, 2%Q)] /\
      batch_queue m' = [(tagged 2 7, 2%Q)]
  | _ => False
  end.
Proof. vm_compute. repeat split. Qed.

Lemma scan_matches_no_match (k : option string) (e : Entity)
  (q : list (Entity * Q)) (i : nat) (n : Z) (acc : list nat) :
  attr_key k e = None -> scan_matches k e q i n acc = (n, acc).
Proof.
  intros He. revert i n acc.
  induction q as [|[qe x] q IH]; intros i n acc; simpl; [reflexivity|].
  unfold attr_match at 1. rewrite He.
  destruct (attr_key k qe); apply IH.
Qed.

(** Every index the scan returns, beyond those it started with, points at
    a waiter of [q] (counted from [i]) that matches [e]. *)
Lemma scan_matches_sound (k : option string) (e : Entity)
  (q : list (Entity * Q)) (i : nat) (n : Z) (acc : list nat) :
  Forall (fun j => j ∈ acc \/ exists qe x, (i <= j)%nat /\
            nth_error q (j - i) = Some (qe, x) /\ attr_match k qe e = true)
    (snd (scan_matches k e q i n acc)).
Proof.
  revert i n acc.
  induction q as [|[qe x] q IH]; intros i n acc; simpl.
  - apply Forall_forall. intros j Hj. left. exact Hj.
  - destruct (attr_match k qe e) eqn:Hm.
    + assert (Hnew : Forall (fun j => j ∈ (acc ++ [i])%list \/ exists qe' x',
          (i <= j)%nat /\ nth_error ((qe, x) :: q) (j - i) = Some (qe', x') /\
          attr_match k qe' e = true) (acc ++ [i])%list).
      { apply Forall_forall. intros j Hj. left. exact Hj. }
      destruct (n - 1 =? 0); simpl.
      * eapply Forall_impl; [exact Hnew|]. intros j [Hj|Hj]; [|right; exact Hj].
        apply elem_of_app in Hj as [Hj|Hj]; [left; exact Hj|].
        apply list_elem_of_singleton in Hj. subst j. right.
        exists qe, x. rewrite Nat.sub_diag. auto.
      * eapply Forall_impl; [apply IH|]. intros j [Hj|(qe' & x' & Hij & Hn & Hm')].
        -- apply elem_of_app in Hj as [Hj|Hj]; [left; exact Hj|].
           apply list_elem_of_singleton in Hj. subst j. right.
           exists qe, x. rewrite Nat.sub_diag. auto.
        -- right. exists qe', x'. split; [lia|].
           replace (j - i)%nat with (S (j - S i)) by lia. auto.
    + eapply Forall_impl; [apply IH|]. intros j [Hj|(qe' & x' & Hij & Hn & Hm')].
      * left. exact Hj.
      * right. exists qe', x'. split; [lia|].
        replace (j - i)%nat with (S (j - S i)) by lia. auto.
Qed.

Lemma attr_match_true (k : option string) (qe e : Entity) :
  attr_match k qe e = true ->
  exists v, attr_key k qe = Some v /\ attr_key k e = Some v.
Proof.
  unfold attr_match.
  destruct (attr_key k qe) as [v1|], (attr_key k e) as [v2|]; try discriminate.
  intros H. apply bool_decide_eq_true in H. subst v2. eauto.
Qed.

(** C10 (counterexample): with [batch_size = 1], a person without ["k"]
    arriving at [batch1] (whose waiter also lacks ["k"]) is not queued: it
    forms a Batch event on its own. *)
Lemma batch_size_one_missing_attr_batches_alone :
  match batch_ingest_entity batch1 (AsEntity (untagged 2)) 5 with
  | Ok (m', [ev]) =>
      event_name ev = "Batch" /\
      ev_batch_entities (event_attr ev) = Some [(untagged 2, 5%Q)] /\
      batch_queue m' = [(untagged 1, 0%Q)]
  | _ => False
  end.
Proof. vm_compute. repeat split. Qed.

(** C10 (amended): for an ATTRIBUTE Batch module and a plain arriving
    entity, every waiter put into a batch has the [batch_attr] key, with
    the arriving entity's value (so an arriving entity lacking the key
    matches no waiter, and a waiter lacking it is never matched); and when
    [batch_size <> 1] an arriving entity lacking the key is appended to the
    queue and [ingest_entity] returns no event, whatever the queue holds. *)
Theorem batch_missing_attr_never_matches (m : BatchModule) (e : Entity) (t : Q)
  (Htype : batch_type m = ATTRIBUTE) :
  (forall m' evs, batch_ingest_entity m (AsEntity e) t = Ok (m', evs) ->
   Forall (fun ev => exists members,
     ev_batch_entities (event_attr ev) = Some ((e, t) :: members) /\
     Forall (fun p => exists v, attr_key (batch_attr m) (fst p) = Some v /\
                                attr_key (batch_attr m) e = Some v) members) evs) /\
  (attr_key (batch_attr m) e = None -> batch_size m <> 1 ->
   batch_ingest_entity m (AsEntity e) t =
     Ok (set_batch_queue m (batch_queue m ++ [(e, t)])%list, [])).
Proof.
  split.
  - intros m' evs. unfold batch_ingest_entity. rewrite Htype.
    pose proof (scan_matches_sound (batch_attr m) e (batch_queue m) 0
                  (batch_size m - 1) []) as Hsound.
    destruct (scan_matches _ _ _ _ _ _) as [needed idx]. simpl in Hsound.
    destruct (needed =? 0).
    + destruct (del_all (batch_queue m) idx) as [q'|x]; simpl; [|discriminate].
      intros [= _ <-]. constructor; [|constructor].
      exists (map (queue_at (batch_queue m) (e, t)) idx). split; [reflexivity|].
      apply Forall_forall. intros p Hp.
      apply list_elem_of_In, in_map_iff in Hp as [j [<- Hj]].
      apply list_elem_of_In in Hj.
      rewrite Forall_forall in Hsound.
      destruct (Hsound j Hj) as [Hnil|(qe & x & _ & Hnth & Hm)];
        [apply not_elem_of_nil in Hnil; contradiction|].
      rewrite Nat.sub_0_r in Hnth. unfold queue_at.
      rewrite (nth_error_nth _ _ _ Hnth). simpl.
      apply attr_match_true. exact Hm.
    + intros [= _ <-]. constructor.
  - intros He Hsize. unfold batch_ingest_entity. rewrite Htype.
    rewrite scan_matches_no_match by exact He.
    destruct (Z.eqb_spec (batch_size m - 1) 0); [lia|]. reflexivity.
Qed.

Lemma batch_missing_attr_never_matches_witness :
  batch_type batch3 = ATTRIBUTE /\
  Forall (fun ev => exists members,
     ev_batch_entities (event_attr ev) = Some ((tagged 4 7, 4%Q) :: members) /\
     Forall (fun p => exists v, attr_key (batch_attr batch3) (fst p) = Some v /\
                 attr_key (batch_attr batch3) (tagged 4 7) = Some v) members)
    [batch_event batch3 (tagged 4 7) 4
       [(tagged 4 7, 4%Q); (tagged 1 7, 1%Q); (tagged 2 7, 2%Q)]].
Proof.
  split; [reflexivity|].
  apply (proj1 (batch_missing_attr_never_matches batch3 (tagged 4 7) 4
                  eq_refl) (set_batch_queue batch3 [(tagged 2 7, 2%Q)])).
  vm_compute. reflexivity.
Defined.

(* ------------------------------------------------------------------ *)
(** ** Resource.calc_utilization *)

Lemma step_integral_shift (g : Z -> Z) (log : list (Q * Z)) (acc : Q) :
  (fold_left (step_integral g) (adjacent_samples log) acc ==
   acc + fold_left (step_integral g) (adjacent_samples log) 0)%Q.
Proof.
  revert acc. induction log as [|x [|y l] IH]; intros acc; simpl.
  - ring.
  - ring.
  - unfold adjacent_samples in IH. simpl in IH.
    rewrite (IH (step_integral g acc (x, y))), (IH (step_integral g 0 (x, y))).
    destruct x as [tx ax], y as [ty ay]. simpl. ring.
Qed.

Lemma last_default_irrelevant {A} (y : A) (l : list A) (d1 d2 : A) :
  List.last (y :: l) d1 = List.last (y :: l) d2.
Proof.
  revert y. induction l as [|z l IH]; intros y; [reflexivity|].
  change (List.last (z :: l) d1 = List.last (z :: l) d2). apply IH.
Qed.

(** The integrals of [a1] and of [c - a1] over the log add up to [c] times
    the time the log covers. *)
Lemma integrals_sum_to_span (c : Z) (log : list (Q * Z)) :
  (fold_left (step_integral (fun a => a)) (adjacent_samples log) 0 +
   fold_left (step_integral (fun a => (c - a)%Z)) (adjacent_samples log) 0 ==
   inject_Z c * log_span log)%Q.
Proof.
  induction log as [|x [|y l] IH]; simpl.
  - unfold log_span. ring.
  - destruct x as [tx ax]. unfold log_span. simpl. ring.
  - change (adjacent_samples (x :: y :: l)) with ((x, y) :: adjacent_samples (y :: l)).
    cbn [fold_left].
    rewrite (step_integral_shift (fun a => a) (y :: l)).
    rewrite (step_integral_shift (fun a => (c - a)%Z) (y :: l)).
    destruct x as [tx ax], y as [ty ay].
    change (log_span ((ty, ay) :: l))
      with (fst (List.last ((ty, ay) :: l) (ty, ay)) - ty)%Q in IH.
    rewrite <- (last_default_irrelevant (ty, ay) l (tx, ax) (ty, ay)) in IH.
    set (F1 := fold_left (step_integral (fun a => a)) (adjacent_samples ((ty, ay) :: l)) 0%Q) in *.
    set (F2 := fold_left (step_integral (fun a => (c - a)%Z))
                 (adjacent_samples ((ty, ay) :: l)) 0%Q) in *.
    cbn [step_integral]. rewrite <- Z.add_opp_r, inject_Z_plus, inject_Z_opp.
    transitivity ((ty - tx) * inject_Z c + (F1 + F2))%Q; [ring|].
    rewrite IH. cbn [log_span List.last fst]. cbn [List.last fst] in *. ring.
Qed.

(** C4 (counterexample): a capacity-1 server seized over [0, 10] and
    free afterwards has utilization 1 over 10 time units, but
    [calc_utilization(10)] reports 0. *)
Lemma calc_utilization_reports_idle_fraction :
  exists u, calc_utilization busy_then_idle 10 = Ok u /\ (u == 0)%Q /\
  (seized_utilization busy_then_idle 10 == 1)%Q.
Proof.
  eexists. split; [vm_compute; reflexivity|]. split; vm_compute; reflexivity.
Qed.

(** C4 (amended): for [capacity > 0] and [duration > 0],
    [calc_utilization(duration)] returns the integral of the availability
    step function, [sum (t2 - t1) * a1], divided by [capacity * duration];
    added to the seized-time utilization of the spec it gives the time the
    log covers divided by [duration]. *)
Theorem calc_utilization_integrates_availability (r : Resource) (duration : Q)
  (Hcap : 0 < capacity r) (Hd : (0 < duration)%Q) :
  exists u, calc_utilization r duration = Ok u /\
  (u == fold_left (step_integral (fun a => a))
          (adjacent_samples (availability_log r)) 0
        / (inject_Z (capacity r) * duration))%Q /\
  (u + seized_utilization r duration ==
     log_span (availability_log r) / duration)%Q.
Proof.
  assert (Hc : ~ (inject_Z (capacity r) == 0)%Q).
  { unfold Qeq; simpl; lia. }
  assert (Hd0 : ~ (duration == 0)%Q).
  { intros H. rewrite H in Hd. apply (Qlt_irrefl 0). exact Hd. }
  assert (Hm : ~ (inject_Z (capacity r) * duration == 0)%Q).
  { intros H. apply Qmult_integral in H as [H|H]; contradiction. }
  unfold calc_utilization.
  destruct (Qeq_bool _ 0) eqn:Hq.
  { apply Qeq_bool_iff in Hq. contradiction. }
  eexists. split; [reflexivity|]. split; [reflexivity|].
  unfold seized_utilization.
  change (fold_left (fun acc '((t1, a1), (t2, _)) =>
            (acc + (t2 - t1) * inject_Z a1)%Q)
            (adjacent_samples (availability_log r)) 0%Q)
    with (fold_left (step_integral (fun a => a))
            (adjacent_samples (availability_log r)) 0%Q).
  change (fold_left (fun acc '((t1, a1), (t2, _)) =>
            (acc + (t2 - t1) * inject_Z (capacity r - a1)%Z)%Q)
            (adjacent_samples (availability_log r)) 0%Q)
    with (fold_left (step_integral (fun a => (capacity r - a)%Z))
            (adjacent_samples (availability_log r)) 0%Q).
  transitivity
    ((fold_left (step_integral (fun a => a)) (adjacent_samples (availability_log r)) 0 +
      fold_left (step_integral (fun a => (capacity r - a)%Z))
        (adjacent_samples (availability_log r)) 0)
     / (inject_Z (capacity r) * duration))%Q.
  { field. split; assumption. }
  rewrite integrals_sum_to_span. field. split; assumption.
Qed.

Lemma calc_utilization_integrates_availability_witness :
  0 < capacity busy_then_idle /\ (0 < 10)%Q /\
  exists u, calc_utilization busy_then_idle 10 = Ok u /\
  (u == fold_left (step_integral (fun a => a))
          (adjacent_samples (availability_log busy_then_idle)) 0
        / (inject_Z (capacity busy_then_idle) * 10))%Q /\
  (u + seized_utilization busy_then_idle 10 ==
     log_span (availability_log busy_then_idle) / 10)%Q.
Proof.
  split; [vm_compute; reflexivity|]. split; [vm_compute; reflexivity|].
  apply (calc_utilization_integrates_availability busy_then_idle 10);
    vm_compute; reflexivity.
Defined.

(* ------------------------------------------------------------------ *)
(** ** Index counters *)

Lemma entity_inds_seq (xs : list Construction) (c : Counters) :
  exists n, entity_inds (construct_all c xs) = seq (entity_counter c) n.
Proof.
  revert c. induction xs as [|x xs IH]; intros c.
  - exists 0%nat. reflexivity.
  - destruct x as [|k]; simpl.
    + destruct (IH (mkCounters (S (entity_counter c)) (module_counter c))) as [n Hn].
      exists (S n). unfold entity_inds in *. simpl. rewrite Hn. reflexivity.
    + destruct (IH (mkCounters (entity_counter c)
                  (fun k' => if decide (k' = k) then S (module_counter c k)
                             else module_counter c k'))) as [n Hn].
      exists n. unfold entity_inds in *. simpl. exact Hn.
Qed.

Lemma module_inds_seq (k : ModuleKind) (xs : list Construction) (c : Counters) :
  exists n, module_inds k (construct_all c xs) = seq (module_counter c k) n.
Proof.
  revert c. induction xs as [|x xs IH]; intros c.
  - exists 0%nat. reflexivity.
  - destruct x as [|k']; simpl.
    + destruct (IH (mkCounters (S (entity_counter c)) (module_counter c))) as [n Hn].
      exists n. unfold module_inds in *. simpl. exact Hn.
    + destruct (IH (mkCounters (entity_counter c)
                  (fun k'' => if decide (k'' = k') then S (module_counter c k')
                              else module_counter c k''))) as [n Hn].
      unfold module_inds in *. simpl in *.
      destruct (decide (k' = k)) as [->|Hne].
      * rewrite bool_decide_true by reflexivity.
        exists (S n). simpl. rewrite Hn. simpl.
        destruct (decide (k = k)); [reflexivity|contradiction].
      * rewrite bool_decide_false by congruence.
        exists n. rewrite Hn. simpl.
        destruct (decide (k = k')); [congruence|reflexivity].
Qed.

Lemma seq_strongly_sorted (a n : nat) : StronglySorted Nat.lt (seq a n).
Proof.
  revert a. induction n as [|n IH]; intros a; simpl; constructor; [apply IH|].
  apply Forall_forall. intros j Hj.
  apply list_elem_of_In, in_seq in Hj. lia.
Qed.

(** C9 (counterexample): the first Create module and the first Seize
    module built in a process both get [module_ind = 0]. *)
Lemma module_ind_shared_across_kinds :
  construct_all initial_counters [NewModule KCreate; NewModule KSeize] =
  [(NewModule KCreate, 0%nat); (NewModule KSeize, 0%nat)].
Proof. reflexivity. Qed.

(** C9 (amended): in any sequence of constructions, the [entity_ind]
    values are strictly increasing in construction order (hence unique),
    and for each module kind the [module_ind] values of the modules of that
    kind are strictly increasing (hence unique within the kind). *)
Theorem construction_indices_increase (xs : list Construction) :
  StronglySorted Nat.lt (entity_inds (construct_all initial_counters xs)) /\
  forall k, StronglySorted Nat.lt (module_inds k (construct_all initial_counters xs)).
Proof.
  split.
  - destruct (entity_inds_seq xs initial_counters) as [n ->].
    apply seq_strongly_sorted.
  - intros k. destruct (module_inds_seq k xs initial_counters) as [n ->].
    apply seq_strongly_sorted.
Qed.

(* ------------------------------------------------------------------ *)
(** ** heapq: the popped element is a smallest one *)

Section ExtractMin.
Context {A : Type} (lt : A -> A -> bool).
Hypothesis lt_irrefl : forall a, lt a a = false.
Hypothesis lt_trans : forall a b c, lt a b = true -> lt b c = true -> lt a c = true.
Hypothesis lt_cotrans :
  forall a b c, lt a c = true -> lt a b = true \/ lt b c = true.

Lemma extract_min_spec (x : A) (l : list A) (m : A) (r : list A) :
  extract_min lt x l = (m, r) ->
  Permutation (x :: l) (m :: r) /\ lt x m = false /\
  Forall (fun y => lt y m = false) r.
Proof.
  revert x m r. induction l as [|y l IH]; intros x m r; simpl.
  - intros [= <- <-]. split; [reflexivity|split; [apply lt_irrefl|constructor]].
  - destruct (lt y x) eqn:Hyx.
    + destruct (extract_min lt y l) as [m' r'] eqn:He. intros [= <- <-].
      destruct (IH y m' r' He) as (Hp & Hy & Hr).
      assert (Hx : lt x m' = false).
      { destruct (lt x m') eqn:Hxm; [|reflexivity].
        rewrite (lt_trans _ _ _ Hyx Hxm) in Hy. discriminate. }
      split; [|split; [exact Hx|constructor; [exact Hx|exact Hr]]].
      transitivity (x :: m' :: r'); [constructor; exact Hp|apply perm_swap].
    + destruct (extract_min lt x l) as [m' r'] eqn:He. intros [= <- <-].
      destruct (IH x m' r' He) as (Hp & Hx & Hr).
      assert (Hy : lt y m' = false).
      { destruct (lt y m') eqn:Hym; [|reflexivity].
        destruct (lt_cotrans _ x _ Hym) as [H|H]; congruence. }
      split; [|split; [exact Hx|constructor; [exact Hy|exact Hr]]].
      transitivity (y :: x :: l); [apply perm_swap|].
      transitivity (y :: m' :: r'); [constructor; exact Hp|apply perm_swap].
Qed.
End ExtractMin.

Lemma lex2_true (a1 a2 : Q) (b1 b2 : nat) :
  lex2 a1 b1 a2 b2 = true <-> (a1 < a2)%Q \/ ((a1 == a2)%Q /\ (b1 < b2)%nat).
Proof.
  unfold lex2, Qltb.
  rewrite orb_true_iff, andb_true_iff, negb_true_iff, Qeq_bool_iff, Nat.ltb_lt.
  split; intros [H|H]; auto.
  - left. apply Qnot_le_lt. intros H'. apply Qle_bool_iff in H'. congruence.
  - left. destruct (Qle_bool a2 a1) eqn:H'; [|reflexivity].
    apply Qle_bool_iff in H'. apply Qle_not_lt in H'. contradiction.
Qed.

Lemma event_entry_lt_irrefl (x : QueuedEvent) : event_entry_lt x x = false.
Proof.
  destruct x as [[t i] e]. unfold event_entry_lt.
  destruct (lex2 t i t i) eqn:H; [|reflexivity].
  apply lex2_true in H as [H|[_ H]]; [apply Qlt_irrefl in H; contradiction|lia].
Qed.

Lemma event_entry_lt_trans (x y z : QueuedEvent) :
  event_entry_lt x y = true -> event_entry_lt y z = true -> event_entry_lt x z = true.
Proof.
  destruct x as [[t1 i1] e1], y as [[t2 i2] e2], z as [[t3 i3] e3].
  unfold event_entry_lt. rewrite !lex2_true.
  intros [H1|[H1 H1']] [H2|[H2 H2']].
  - left. lra.
  - left. lra.
  - left. lra.
  - right. split; [lra|lia].
Qed.

Lemma event_entry_lt_cotrans (x y z : QueuedEvent) :
  event_entry_lt x z = true -> event_entry_lt x y = true \/ event_entry_lt y z = true.
Proof.
  destruct x as [[t1 i1] e1], y as [[t2 i2] e2], z as [[t3 i3] e3].
  unfold event_entry_lt. rewrite !lex2_true.
  intros H.
  destruct (Q_dec t1 t2) as [[H12|H12]|H12].
  - left. left. exact H12.
  - right. left. destruct H as [H|[H _]]; lra.
  - destruct H as [H|[H H']].
    + right. left. lra.
    + destruct (Nat.lt_ge_cases i1 i2).
      * left. right. split; [exact H12|lia].
      * right. right. split; [lra|lia].
Qed.

(* ------------------------------------------------------------------ *)
(** ** Environment.run_simulation *)

Lemma add_events_app (q : list QueuedEvent) (evs : list Event) :
  add_events q evs =
  (q ++ map (fun e => (event_time e, entity_ind (core (event_entity e)), e)) evs)%list.
Proof.
  revert q. induction evs as [|e evs IH]; intros q; simpl.
  - rewrite app_nil_r. reflexivity.
  - unfold add_events in *. simpl. rewrite IH. unfold add_event, heappush.
    rewrite <- app_assoc. reflexivity.
Qed.

(** The loop condition: an iteration exits exactly when the heap is empty
    or its smallest entry is later than [duration]. *)
Lemma loop_step_exit_iff
  (invoke : Event -> Result (list Event * gmap string Val))
  (duration : Q) (env : Environment) :
  loop_step invoke duration env = Exit <->
  event_queue env = [] \/
  exists t i e rest, heappop event_entry_lt (event_queue env) = Some ((t, i, e), rest) /\
                     (duration < event_time e)%Q.
Proof.
  unfold loop_step.
  destruct (event_queue env) as [|x l] eqn:Hq; [split; auto|].
  simpl. destruct (extract_min event_entry_lt x l) as [[[t i] e] rest].
  destruct (Qle_bool (event_time e) duration) eqn:Hle.
  - apply Qle_bool_iff in Hle. split.
    + destruct (invoke e) as [[? ?]|?]; discriminate.
    + intros [H|(t' & i' & e' & rest' & [= <- <- <- <-] & H)]; [discriminate|].
      apply Qle_not_lt in Hle. contradiction.
  - split; [intros _|reflexivity]. right. exists t, i, e, rest. split; [reflexivity|].
    apply Qnot_le_lt. intros H. apply Qle_bool_iff in H. congruence.
Qed.

Lemma loop_step_cases
  (invoke : Event -> Result (list Event * gmap string Val))
  (duration : Q) (env : Environment) :
  match loop_step invoke duration env with
  | Exit => True
  | Crash _ e rest =>
      exists t i, heappop event_entry_lt (event_queue env) = Some ((t, i, e), rest)
  | Next env' e rest =>
      exists t i evs upd,
        heappop event_entry_lt (event_queue env) = Some ((t, i, e), rest) /\
        invoke e = Ok (evs, upd) /\ event_queue env' = add_events rest evs
  end.
Proof.
  unfold loop_step.
  destruct (heappop event_entry_lt (event_queue env)) as [[[[t i] e] rest]|];
    [|exact I].
  destruct (Qle_bool (event_time e) duration); [|exact I].
  destruct (invoke e) as [[evs upd]|x] eqn:Hi; simpl; eauto 7.
Qed.

Lemma heappop_popped_before (q : list QueuedEvent) (t : Q) (i : nat) (e : Event)
  (rest : list QueuedEvent) :
  Forall entry_wf q ->
  heappop event_entry_lt q = Some ((t, i, e), rest) ->
  Permutation q ((t, i, e) :: rest) /\ entry_wf (t, i, e) /\
  Forall entry_wf rest /\ Forall (popped_before e) rest.
Proof.
  intros Hwf Hpop. destruct q as [|x l]; [discriminate|].
  simpl in Hpop. injection Hpop as Hpop.
  destruct (extract_min_spec event_entry_lt event_entry_lt_irrefl
              event_entry_lt_trans event_entry_lt_cotrans x l _ _ Hpop)
    as (Hperm & _ & Hmin).
  rewrite Forall_forall in Hwf.
  assert (Hm : entry_wf (t, i, e)).
  { apply Hwf. apply list_elem_of_In. apply (Permutation_in _ (Permutation_sym Hperm)).
    left. reflexivity. }
  assert (Hrest : Forall entry_wf rest).
  { apply Forall_forall. intros y Hy. apply Hwf. apply list_elem_of_In.
    apply (Permutation_in _ (Permutation_sym Hperm)). right.
    apply list_elem_of_In. exact Hy. }
  split; [exact Hperm|]. split; [exact Hm|]. split; [exact Hrest|].
  apply Forall_forall. intros [[t' i'] e'] Hy.
  rewrite Forall_forall in Hmin, Hrest.
  specialize (Hmin _ Hy). specialize (Hrest _ Hy).
  destruct Hm as [-> ->], Hrest as [-> ->].
  simpl in Hmin. unfold event_entry_lt in Hmin.
  split.
  - apply Qnot_lt_le. intros H.
    assert (lex2 (event_time e') (entity_ind (core (event_entity e')))
              (event_time e) (entity_ind (core (event_entity e))) = true)
      by (apply lex2_true; left; exact H).
    congruence.
  - intros Heq. destruct (Nat.le_gt_cases (entity_ind (core (event_entity e)))
                            (entity_ind (core (event_entity e')))) as [H|H];
      [exact H|].
    assert (lex2 (event_time e') (entity_ind (core (event_entity e')))
              (event_time e) (entity_ind (core (event_entity e))) = true)
      by (apply lex2_true; right; split; [symmetry; exact Heq|exact H]).
    congruence.
Qed.

Lemma queued_time_lower_bound (q : list QueuedEvent) (t0 : Q) (e : Event)
  (t : Q) (i : nat) (rest : list QueuedEvent) :
  Forall (fun x : QueuedEvent => let '(_, _, e') := x in (t0 <= event_time e')%Q) q ->
  Permutation q ((t, i, e) :: rest) ->
  (t0 <= event_time e)%Q.
Proof.
  intros Hq Hperm. rewrite Forall_forall in Hq.
  apply (Hq (t, i, e)). apply list_elem_of_In.
  apply (Permutation_in _ (Permutation_sym Hperm)). left. reflexivity.
Qed.

Lemma run_loop_pops_in_order
  (invoke : Event -> Result (list Event * gmap string Val))
  (Hmono : handler_not_earlier invoke) (fuel : nat) (duration : Q) :
  forall env, Forall entry_wf (event_queue env) ->
  Sorted time_le (snd (run_loop invoke fuel duration env)) /\
  Forall (fun p => Forall (popped_before (fst p)) (snd p))
    (snd (run_loop invoke fuel duration env)) /\
  (forall t0, Forall (fun x : QueuedEvent => let '(_, _, e') := x in (t0 <= event_time e')%Q)
                (event_queue env) ->
   Forall (fun p => (t0 <= event_time (fst p))%Q) (snd (run_loop invoke fuel duration env))).
Proof.
  induction fuel as [|fuel IH]; intros env Hwf; simpl.
  { split; [constructor|]. split; [constructor|]. intros; constructor. }
  pose proof (loop_step_cases invoke duration env) as Hc.
  destruct (loop_step invoke duration env) as [|x e rest|env' e rest]; simpl.
  - split; [constructor|]. split; [constructor|]. intros; constructor.
  - destruct Hc as (t & i & Hpop).
    destruct (heappop_popped_before _ _ _ _ _ Hwf Hpop) as (Hperm & _ & _ & Hpb).
    split; [repeat constructor|]. split; [repeat constructor; exact Hpb|].
    intros t0 Ht0. constructor; [|constructor].
    exact (queued_time_lower_bound _ _ _ _ _ _ Ht0 Hperm).
  - destruct Hc as (t & i & evs & upd & Hpop & Hinv & Hq').
    destruct (heappop_popped_before _ _ _ _ _ Hwf Hpop) as (Hperm & _ & Hrest & Hpb).
    assert (Hwf' : Forall entry_wf (event_queue env')).
    { rewrite Hq', add_events_app. apply Forall_app. split; [exact Hrest|].
      apply Forall_forall. intros y Hy. apply list_elem_of_In in Hy.
      apply in_map_iff in Hy. destruct Hy as (e'' & <- & _). split; reflexivity. }
    assert (Hlow : Forall (fun x : QueuedEvent => let '(_, _, e') := x in
                             (event_time e <= event_time e')%Q) (event_queue env')).
    { rewrite Hq', add_events_app. apply Forall_app. split.
      - apply Forall_forall. intros [[t' i'] e'] Hy. rewrite Forall_forall in Hpb.
        exact (proj1 (Hpb _ Hy)).
      - apply Forall_forall. intros y Hy. apply list_elem_of_In in Hy.
        apply in_map_iff in Hy. destruct Hy as (e'' & <- & Hin).
        specialize (Hmono _ _ _ Hinv). rewrite Forall_forall in Hmono.
        apply Hmono. apply list_elem_of_In. exact Hin. }
    destruct (IH env' Hwf') as (Hsorted & Hall & Hbound).
    destruct (run_loop invoke fuel duration env') as [o tr] eqn:Hrun. simpl in *.
    split; [|split].
    + constructor; [exact Hsorted|].
      specialize (Hbound _ Hlow). destruct tr as [|p tr]; constructor.
      inversion Hbound; subst. exact H1.
    + constructor; [exact Hpb|exact Hall].
    + intros t0 Ht0. pose proof (queued_time_lower_bound _ _ _ _ _ _ Ht0 Hperm) as He.
      constructor; [exact He|]. apply Hbound.
      apply (Forall_impl _ _ _ Hlow). intros [[t' i'] e'] H.
      exact (Qle_trans _ _ _ He H).
Qed.

(** C6: with handlers that schedule events at the current time or later,
    [run_simulation] pops events in non-decreasing time order, and each
    popped event is the smallest entry of the heap in (time, entity_ind)
    order: every entry left in the heap when it is popped is later, or at
    the same time with an entity index at least as large. *)
Theorem run_simulation_pops_in_time_order
  (invoke : Event -> Result (list Event * gmap string Val))
  (Hmono : handler_not_earlier invoke)
  (duration : Q) (arrivals : list Event) (fuel : nat) :
  Sorted time_le (snd (run_simulation invoke duration arrivals fuel)) /\
  Forall (fun p => Forall (popped_before (fst p)) (snd p))
    (snd (run_simulation invoke duration arrivals fuel)).
Proof.
  unfold run_simulation.
  destruct (run_loop_pops_in_order invoke Hmono fuel duration
              (mkEnvironment (add_events [] arrivals) ∅)) as (H1 & H2 & _).
  - simpl. rewrite add_events_app. simpl.
    apply Forall_forall. intros y Hy. apply list_elem_of_In in Hy.
    apply in_map_iff in Hy. destruct Hy as (e & <- & _). split; reflexivity.
  - split; assumption.
Qed.

Lemma run_simulation_pops_in_time_order_witness :
  handler_not_earlier schedule_departure /\
  map (fun p => (event_time (fst p), entity_ind (core (event_entity (fst p)))))
    (snd (run_simulation schedule_departure 10 arrivals_789 10)) =
    [(1%Q, 7%nat); (2%Q, 8%nat); (2%Q, 9%nat); (3%Q, 7%nat); (4%Q, 8%nat);
     (4%Q, 9%nat)] /\
  Sorted time_le (snd (run_simulation schedule_departure 10 arrivals_789 10)) /\
  Forall (fun p => Forall (popped_before (fst p)) (snd p))
    (snd (run_simulation schedule_departure 10 arrivals_789 10)).
Proof.
  assert (H : handler_not_earlier schedule_departure).
  { intros e evs upd Hi. unfold schedule_departure in Hi.
    destruct (String.eqb (event_name e) "Create"); injection Hi as <- _;
      repeat constructor; simpl; lra. }
  split; [exact H|]. split; [vm_compute; reflexivity|].
  exact (run_simulation_pops_in_time_order schedule_departure H 10 arrivals_789 10).
Defined.

(** C3: [run_simulation] calls [curr_event.event_handler(curr_event)] with
    the event alone, while every module's [process_event] takes the event
    and [sys_var]: whenever the loop pops an event within [duration] it
    raises [TypeError], and it never completes an iteration. A run with one
    arrival at time 1 and duration 10 crashes. *)
Theorem run_simulation_handler_call_raises
  (body : nat -> Event -> SysVar -> Result (list Event * SysVar)) :
  (forall duration env,
     match loop_step (invoke_module_handler body) duration env with
     | Exit => True
     | Crash x _ _ => x = TypeError
     | Next _ _ _ => False
     end) /\
  fst (run_simulation (invoke_module_handler body) 10 [arrival7] 5) = Crashed TypeError.
Proof.
  split.
  - intros duration env. unfold loop_step.
    destruct (heappop event_entry_lt (event_queue env)) as [[[[t i] e] rest]|];
      [|exact I].
    destruct (Qle_bool (event_time e) duration); [|exact I].
    unfold invoke_module_handler, call_process_event.
    destruct (event_handler e). reflexivity.
  - reflexivity.
Qed.

(* ------------------------------------------------------------------ *)
(** ** Resource queue: the woken waiter *)

Lemma Qltb_true (a b : Q) : Qltb a b = true <-> (a < b)%Q.
Proof.
  unfold Qltb. rewrite negb_true_iff. split.
  - intros H. apply Qnot_le_lt. intros H'. apply Qle_bool_iff in H'. congruence.
  - intros H. destruct (Qle_bool b a) eqn:H'; [|reflexivity].
    apply Qle_bool_iff in H'. apply Qle_not_lt in H'. contradiction.
Qed.

Lemma lex3_true (a1 : Q) (b1 : Z) (c1 : nat) (a2 : Q) (b2 : Z) (c2 : nat) :
  lex3 a1 b1 c1 a2 b2 c2 = true <->
  (a1 < a2)%Q \/ ((a1 == a2)%Q /\ (b1 < b2 \/ (b1 = b2 /\ (c1 < c2)%nat))).
Proof.
  unfold lex3.
  rewrite orb_true_iff, andb_true_iff, orb_true_iff, andb_true_iff,
    Qltb_true, Qeq_bool_iff, Z.ltb_lt, Z.eqb_eq, Nat.ltb_lt.
  reflexivity.
Qed.

Lemma qentry_lt_false_le (x y : QEntry) : qentry_lt x y = false -> qentry_le y x.
Proof.
  destruct x as [[[[t1 d1] i1] x1] h1], y as [[[[t2 d2] i2] x2] h2].
  unfold qentry_lt, qentry_le. intros H.
  assert (Hn : ~ ((t1 < t2)%Q \/ ((t1 == t2)%Q /\ (d1 < d2 \/ (d1 = d2 /\ (i1 < i2)%nat))))).
  { rewrite <- lex3_true. congruence. }
  destruct (Q_dec t1 t2) as [[Ht|Ht]|Ht].
  - exfalso. apply Hn. left. exact Ht.
  - left. exact Ht.
  - right. split; [symmetry; exact Ht|].
    destruct (Z.lt_trichotomy d1 d2) as [Hd|[Hd|Hd]].
    + exfalso. apply Hn. right. split; [exact Ht|left; exact Hd].
    + right. split; [symmetry; exact Hd|].
      destruct (Nat.lt_ge_cases i1 i2) as [Hi|Hi]; [|exact Hi].
      exfalso. apply Hn. right. split; [exact Ht|right; split; assumption].
    + left. exact Hd.
Qed.

Lemma qentry_le_trans (x y z : QEntry) :
  qentry_le x y -> qentry_le y z -> qentry_le x z.
Proof.
  destruct x as [[[[t1 d1] i1] x1] h1], y as [[[[t2 d2] i2] x2] h2],
    z as [[[[t3 d3] i3] x3] h3].
  unfold qentry_le.
  intros [H1|(H1 & [H1'|(H1' & H1'')])] [H2|(H2 & [H2'|(H2' & H2'')])];
    first [left; lra | right; split; [lra|]; first [left; lia | right; split; lia]].
Qed.

Lemma qentry_le_not_lt (x y : QEntry) : qentry_le y x -> qentry_lt x y = false.
Proof.
  intros Hle. destruct (qentry_lt x y) eqn:H; [|reflexivity]. exfalso.
  destruct x as [[[[t1 d1] i1] x1] h1], y as [[[[t2 d2] i2] x2] h2].
  unfold qentry_lt, qentry_le in *. apply lex3_true in H.
  destruct H as [H|(H & [H'|(H' & H'')])],
    Hle as [H2|(H2 & [H2'|(H2' & H2'')])]; first [lra | lia].
Qed.

Lemma qentry_lt_irrefl (x : QEntry) : qentry_lt x x = false.
Proof.
  apply qentry_le_not_lt. destruct x as [[[[t d] i] x] h]. unfold qentry_le.
  right. split; [reflexivity|right; split; [reflexivity|lia]].
Qed.

Lemma qentry_lt_trans (x y z : QEntry) :
  qentry_lt x y = true -> qentry_lt y z = true -> qentry_lt x z = true.
Proof.
  destruct x as [[[[t1 d1] i1] x1] h1], y as [[[[t2 d2] i2] x2] h2],
    z as [[[[t3 d3] i3] x3] h3].
  unfold qentry_lt. rewrite !lex3_true.
  intros [H1|(H1 & [H1'|(H1' & H1'')])] [H2|(H2 & [H2'|(H2' & H2'')])];
    first [left; lra | right; split; [lra|]; first [left; lia | right; split; lia]].
Qed.

Lemma qentry_lt_cotrans (x y z : QEntry) :
  qentry_lt x z = true -> qentry_lt x y = true \/ qentry_lt y z = true.
Proof.
  intros Hxz. destruct (qentry_lt x y) eqn:Hxy; [left; reflexivity|].
  destruct (qentry_lt y z) eqn:Hyz; [right; reflexivity|].
  apply qentry_lt_false_le in Hxy, Hyz.
  rewrite (qentry_le_not_lt x z (qentry_le_trans _ _ _ Hyz Hxy)) in Hxz.
  discriminate.
Qed.

(** Every outcome of [release]. It raises [ValueError] when more units are
    released than are seized, leaving the resource as it was, or when its
    own [seize] fails, which needs a negative [available]. Otherwise it
    logs the released count; if the smallest waiter does not fit or the
    queue is empty that is all, and if the waiter fits it is removed from
    the queue, a second sample is logged by the [seize], and the waiter's
    Seize event is returned. *)
Lemma release_cases (r : Resource) (n : Z) (t : Q) :
  match release r n t with
  | (r', Raise x) =>
      x = ValueError /\
      ((capacity r - available r < n /\ r' = r) \/
       (n <= capacity r - available r /\ available r < 0))
  | (r', Ok None) =>
      n <= capacity r - available r /\ queue r' = queue r /\
      available r' = available r + n /\
      availability_log r' = (availability_log r ++ [(t, available r + n)])%list
  | (r', Ok (Some ev)) =>
      n <= capacity r - available r /\
      exists qt d i x h,
        Permutation (queue r) ((qt, d, i, x, h) :: queue r') /\
        Forall (fun y => qentry_le (qt, d, i, x, h) y) (queue r') /\
        d <= available r + n /\
        ev = mkEvent t "Seize" h x empty_attr /\
        availability_log r' =
          (availability_log r ++ [(t, available r + n); (t, available r')])%list
  end.
Proof.
  unfold release.
  destruct (Z.ltb_spec (capacity r - available r) n) as [Hc|Hc].
  { split; [reflexivity|left; split; [exact Hc|reflexivity]]. }
  unfold log_sample, set_available. cbn [queue available availability_log].
  destruct (queue r) as [|y l] eqn:Hq.
  { cbn. repeat split; lia. }
  cbn [heappop].
  destruct (extract_min qentry_lt y l) as [[[[[qt d] i] x] h] rest] eqn:He.
  destruct (Z.leb_spec d (available r + n)) as [Hd|Hd];
    [|cbn; repeat split; lia].
  unfold seize. cbn [available].
  destruct (Z.ltb_spec (available r + n - n) 0) as [Hs|Hs].
  { split; [reflexivity|right; split; lia]. }
  split; [exact Hc|].
  exists qt, d, i, x, h. cbn [queue set_queue availability_log available].
  destruct (extract_min_spec qentry_lt qentry_lt_irrefl qentry_lt_trans
              qentry_lt_cotrans y l _ _ He) as (Hp & _ & Hmin).
  split; [exact Hp|]. split.
  { apply (Forall_impl _ _ _ Hmin). intros z Hz. apply qentry_lt_false_le. exact Hz. }
  split; [exact Hd|]. split; [reflexivity|].
  unfold log_sample, set_available. cbn [availability_log available].
  rewrite <- app_assoc. reflexivity.
Qed.

(** On a queue without ties on the leading keys, a release that raises
    reports [ValueError], and only when more units are released than are
    seized or when [available] was negative; one that wakes nobody leaves
    the queue as it was; one that wakes a waiter removes exactly that
    waiter from the queue, which is first in the queue's
    (queue_entry_time, num_resources, entity_ind) order, and returns a
    Seize event at the release time for that waiter's entity and handler. *)
Theorem release_wakes_first_waiter (r : Resource) (n : Z) (t : Q)
  (Htf : tie_free (queue r)) :
  match release r n t with
  | (_, Raise x) => x = ValueError /\ (capacity r - available r < n \/ available r < 0)
  | (r', Ok None) => queue r' = queue r
  | (r', Ok (Some ev)) =>
      exists qt d i x h,
        Permutation (queue r) ((qt, d, i, x, h) :: queue r') /\
        Forall (fun y => qentry_le (qt, d, i, x, h) y) (queue r') /\
        ev = mkEvent t "Seize" h x empty_attr
  end.
Proof.
  pose proof (release_cases r n t) as H.
  destruct (release r n t) as [r' [[ev|]|x]].
  - destruct H as (_ & qt & d & i & x & h & Hp & Hf & _ & He & _).
    exists qt, d, i, x, h. auto.
  - tauto.
  - destruct H as [-> [[Hc _]|[_ Ha]]]; auto.
Qed.

Lemma release_wakes_first_waiter_witness :
  tie_free (queue two_waiters) /\
  match release two_waiters 2 5 with
  | (_, Raise x) =>
      x = ValueError /\
      (capacity two_waiters - available two_waiters < 2 \/ available two_waiters < 0)
  | (r', Ok None) => queue r' = queue two_waiters
  | (r', Ok (Some ev)) =>
      exists qt d i x h,
        Permutation (queue two_waiters) ((qt, d, i, x, h) :: queue r') /\
        Forall (fun y => qentry_le (qt, d, i, x, h) y) (queue r') /\
        ev = mkEvent 5 "Seize" h x empty_attr
  end.
Proof.
  assert (H : tie_free (queue two_waiters))
    by (repeat constructor; vm_compute; reflexivity).
  split; [exact H|].
  exact (release_wakes_first_waiter two_waiters 2 5 H).
Defined.

(* ------------------------------------------------------------------ *)
(** ** SeizeModule.ingest_entity and ReleaseModule.ingest_entity *)

(** When the entry it would push does not tie on the leading keys with a
    queued entry, [SeizeModule.ingest_entity] never raises: when fewer
    units are available than the module needs, it queues the entity with
    the module's handler and returns no event; otherwise it seizes the
    units, logging one sample, and returns one Seize event at the ingest
    time. *)
Theorem seize_ingest_entity_never_raises (r : Resource) (n : Z) (mi : nat)
  (x : AnyEntity) (t : Q)
  (Hnew : Forall (fun y => keys_differ (t, n, entity_ind (core x), x, ProcessEvent mi) y = true)
            (queue r)) :
  match seize_ingest_entity r n mi x t with
  | (r', Ok []) =>
      available r < n /\ r' = queue_entity r x n t (ProcessEvent mi)
  | (r', Ok [ev]) =>
      n <= available r /\ available r' = available r - n /\ queue r' = queue r /\
      availability_log r' = (availability_log r ++ [(t, available r - n)])%list /\
      ev = mkEvent t "Seize" (ProcessEvent mi) x empty_attr
  | _ => False
  end.
Proof.
  unfold seize_ingest_entity.
  destruct (available r <? n) eqn:H.
  - split; [apply Z.ltb_lt; exact H|reflexivity].
  - apply Z.ltb_ge in H. rewrite (proj2 (seize_outcome r n t) H).
    repeat split; lia.
Qed.

Lemma seize_ingest_entity_never_raises_witness :
  Forall (fun y => keys_differ (4%Q, 2, 9%nat, AsEntity customer9, ProcessEvent 3) y = true)
    (queue two_waiters) /\
  match seize_ingest_entity two_waiters 2 3 (AsEntity customer9) 4 with
  | (r', Ok []) =>
      available two_waiters < 2 /\
      r' = queue_entity two_waiters (AsEntity customer9) 2 4 (ProcessEvent 3)
  | (r', Ok [ev]) =>
      2 <= available two_waiters /\ available r' = available two_waiters - 2 /\
      queue r' = queue two_waiters /\
      availability_log r' =
        (availability_log two_waiters ++ [(4%Q, available two_waiters - 2)])%list /\
      ev = mkEvent 4 "Seize" (ProcessEvent 3) (AsEntity customer9) empty_attr
  | _ => False
  end.
Proof.
  assert (H : Forall (fun y => keys_differ (4%Q, 2, 9%nat, AsEntity customer9,
                                              ProcessEvent 3) y = true)
                (queue two_waiters))
    by (repeat constructor; vm_compute; reflexivity).
  split; [exact H|].
  exact (seize_ingest_entity_never_raises two_waiters 2 3 (AsEntity customer9) 4 H).
Defined.

(** On a queue without ties on the leading keys, [ReleaseModule.ingest_entity]
    raises only [ValueError], and only when more units are released than
    are seized or [available] was negative; otherwise it returns the
    Release event of the entity at the ingest time, preceded either by
    nothing or by the Seize event, at that same time, of the waiter that
    the release removed from the queue, which was first in the queue's
    (queue_entry_time, num_resources, entity_ind) order. *)
Theorem release_ingest_entity_events (r : Resource) (n : Z) (mi : nat)
  (x : AnyEntity) (t : Q) (Htf : tie_free (queue r)) :
  match release_ingest_entity r n mi x t with
  | (_, Raise e) => e = ValueError /\ (capacity r - available r < n \/ available r < 0)
  | (r', Ok evs) =>
      exists pre, evs = (pre ++ [mkEvent t "Release" (ProcessEvent mi) x empty_attr])%list /\
      (pre = [] \/
       exists qt d i y h,
         Permutation (queue r) ((qt, d, i, y, h) :: queue r') /\
         Forall (fun z => qentry_le (qt, d, i, y, h) z) (queue r') /\
         pre = [mkEvent t "Seize" h y empty_attr])
  end.
Proof.
  pose proof (release_cases r n t) as H.
  unfold release_ingest_entity.
  destruct (release r n t) as [r' [[ev|]|e]].
  - destruct H as (_ & qt & d & i & y & h & Hp & Hf & _ & -> & _).
    exists [mkEvent t "Seize" h y empty_attr]. split; [reflexivity|].
    right. exists qt, d, i, y, h. auto.
  - exists []. split; [reflexivity|left; reflexivity].
  - destruct H as [-> [[Hc _]|[_ Ha]]]; auto.
Qed.

Lemma release_ingest_entity_events_witness :
  tie_free (queue two_waiters) /\
  match release_ingest_entity two_waiters 2 2 (AsEntity customer9) 5 with
  | (_, Raise e) =>
      e = ValueError /\
      (capacity two_waiters - available two_waiters < 2 \/ available two_waiters < 0)
  | (r', Ok evs) =>
      exists pre,
      evs = (pre ++ [mkEvent 5 "Release" (ProcessEvent 2) (AsEntity customer9)
                       empty_attr])%list /\
      (pre = [] \/
       exists qt d i y h,
         Permutation (queue two_waiters) ((qt, d, i, y, h) :: queue r') /\
         Forall (fun z => qentry_le (qt, d, i, y, h) z) (queue r') /\
         pre = [mkEvent 5 "Seize" h y empty_attr])
  end.
Proof.
  assert (H : tie_free (queue two_waiters))
    by (repeat constructor; vm_compute; reflexivity).
  split; [exact H|].
  exact (release_ingest_entity_events two_waiters 2 2 (AsEntity customer9) 5 H).
Defined.

(* ------------------------------------------------------------------ *)
(** ** Resource.seize and Resource.release: errors and the log *)

(** C7 (amended): [seize] raises exactly when the demand exceeds
    [available] and then changes nothing; otherwise it decrements
    [available] by the demand and appends one sample. From a state with
    [0 <= available] and a queue without ties on the leading keys,
    [release] raises exactly when the demand exceeds [capacity - available]
    and then changes nothing; otherwise it appends [(t, available + n)] and
    either returns no event, with [available + n] available, or wakes the
    smallest waiter, whose demand fits [available + n]: it removes it from
    the queue, returns its Seize event at [t], and its internal [seize]
    appends a second sample [(t, a)] with [a] the final [available]. *)
Theorem seize_release_errors_and_log (r : Resource) (n : Z) (t : Q) :
  (snd (seize r n t) = Raise ValueError <-> available r < n) /\
  (available r < n -> fst (seize r n t) = r) /\
  (n <= available r ->
   available (fst (seize r n t)) = available r - n /\
   availability_log (fst (seize r n t)) =
     (availability_log r ++ [(t, available r - n)])%list) /\
  (0 <= available r -> tie_free (queue r) ->
   ((exists x, snd (release r n t) = Raise x) <-> capacity r - available r < n) /\
   (capacity r - available r < n -> fst (release r n t) = r) /\
   (n <= capacity r - available r ->
    (snd (release r n t) = Ok None /\
     available (fst (release r n t)) = available r + n /\
     availability_log (fst (release r n t)) =
       (availability_log r ++ [(t, available r + n)])%list) \/
    (exists qt d i x h,
     Permutation (queue r) ((qt, d, i, x, h) :: queue (fst (release r n t))) /\
     Forall (fun y => qentry_le (qt, d, i, x, h) y) (queue (fst (release r n t))) /\
     d <= available r + n /\
     snd (release r n t) = Ok (Some (mkEvent t "Seize" h x empty_attr)) /\
     availability_log (fst (release r n t)) =
       (availability_log r ++
        [(t, available r + n); (t, available (fst (release r n t)))])%list))).
Proof.
  destruct (seize_outcome r n t) as [Hs1 Hs2].
  split; [split|].
  - intros Hx. destruct (Z.lt_ge_cases (available r) n) as [H|H]; [exact H|].
    rewrite (Hs2 H) in Hx. discriminate.
  - intros H. rewrite (Hs1 H). reflexivity.
  - split; [intros H; rewrite (Hs1 H); reflexivity|].
    split; [intros H; rewrite (Hs2 H); split; reflexivity|].
    intros Havail _.
    pose proof (release_cases r n t) as Hc.
    destruct (release r n t) as [r' [[ev|]|x]]; cbn [fst snd].
    + destruct Hc as (Hn & qt & d & i & y & h & Hp & Hf & Hd & -> & Hl).
      split; [split; [intros [x Hx]; discriminate|lia]|].
      split; [lia|]. intros _. right.
      exists qt, d, i, y, h. auto.
    + destruct Hc as (Hn & Hq & Ha & Hl).
      split; [split; [intros [x Hx]; discriminate|lia]|].
      split; [lia|]. intros _. left. auto.
    + destruct Hc as [-> [[Hc ->]|[_ Ha]]]; [|lia].
      split; [split; [intros _; exact Hc|intros _; eexists; reflexivity]|].
      split; [intros _; reflexivity|lia].
Qed.

Lemma seize_release_errors_and_log_witness :
  0 <= available two_waiters /\ tie_free (queue two_waiters) /\
  ((exists x, snd (release two_waiters 2 5) = Raise x) <->
   capacity two_waiters - available two_waiters < 2).
Proof.
  assert (H0 : 0 <= available two_waiters) by (vm_compute; discriminate).
  assert (H1 : tie_free (queue two_waiters))
    by (repeat constructor; vm_compute; reflexivity).
  split; [exact H0|]. split; [exact H1|].
  exact (proj1 (proj2 (proj2 (proj2 (seize_release_errors_and_log two_waiters 2 5)))
                  H0 H1)).
Defined.

(* ------------------------------------------------------------------ *)
(** ** Resource.calc_utilization: edge cases and bounds *)

Lemma inject_Z_eq_0 (z : Z) : (inject_Z z == 0)%Q <-> z = 0.
Proof. unfold Qeq. simpl. lia. Qed.

(** [calc_utilization] raises [ZeroDivisionError] exactly when the
    capacity or the duration is zero; otherwise a log with fewer than two
    samples (a resource never seized nor released has none) gives 0. *)
Theorem calc_utilization_edge_cases (r : Resource) (duration : Q) :
  (calc_utilization r duration = Raise ZeroDivisionError <->
   capacity r = 0 \/ (duration == 0)%Q) /\
  ((length (availability_log r) <= 1)%nat -> capacity r <> 0 -> ~ (duration == 0)%Q ->
   exists u, calc_utilization r duration = Ok u /\ (u == 0)%Q).
Proof.
  unfold calc_utilization. split.
  - destruct (Qeq_bool _ 0) eqn:Hq.
    + apply Qeq_bool_iff in Hq. split; [intros _|reflexivity].
      apply Qmult_integral in Hq as [H|H]; [left; exact (proj1 (inject_Z_eq_0 _) H)|right; exact H].
    + split; [discriminate|]. intros H. exfalso.
      assert (Hm : (inject_Z (capacity r) * duration == 0)%Q).
      { destruct H as [H|H]; [rewrite H; ring|rewrite H; ring]. }
      apply Qeq_bool_iff in Hm. congruence.
  - intros Hlen Hc Hd.
    destruct (Qeq_bool _ 0) eqn:Hq.
    { apply Qeq_bool_iff in Hq.
      apply Qmult_integral in Hq as [H|H]; [destruct (Hc (proj1 (inject_Z_eq_0 _) H))|destruct (Hd H)]. }
    eexists. split; [reflexivity|].
    destruct (availability_log r) as [|x [|y l]]; simpl in Hlen; [| |lia];
      unfold Qdiv; simpl; ring.
Qed.

Lemma calc_utilization_edge_cases_witness :
  (length (availability_log (new_resource "Server" 2)) <= 1)%nat /\
  capacity (new_resource "Server" 2) <> 0 /\ ~ (10 == 0)%Q /\
  exists u, calc_utilization (new_resource "Server" 2) 10 = Ok u /\ (u == 0)%Q.
Proof.
  assert (H1 : (length (availability_log (new_resource "Server" 2)) <= 1)%nat)
    by (simpl; lia).
  assert (H2 : capacity (new_resource "Server" 2) <> 0) by discriminate.
  assert (H3 : ~ (10 == 0)%Q) by discriminate.
  split; [exact H1|]. split; [exact H2|]. split; [exact H3|].
  exact (proj2 (calc_utilization_edge_cases (new_resource "Server" 2) 10) H1 H2 H3).
Defined.

Lemma step_integral_nonneg (g : Z -> Z) (log : list (Q * Z)) :
  Sorted (fun x y => (fst x <= fst y)%Q) log ->
  Forall (fun s => 0 <= g (snd s)) log ->
  (0 <= fold_left (step_integral g) (adjacent_samples log) 0)%Q.
Proof.
  induction log as [|x [|y l] IH]; intros Hs Hg; [apply Qle_refl|apply Qle_refl|].
  change (adjacent_samples (x :: y :: l)) with ((x, y) :: adjacent_samples (y :: l)).
  cbn [fold_left]. rewrite step_integral_shift.
  apply Sorted_inv in Hs as [Hs Hhd]. apply HdRel_inv in Hhd.
  inversion Hg as [|? ? Hgx Hg']; subst.
  specialize (IH Hs Hg').
  destruct x as [tx ax], y as [ty ay]. cbn [step_integral fst snd] in *.
  assert (0 <= inject_Z (g ax))%Q by (unfold Qle; simpl; lia).
  assert (0 <= (ty - tx) * inject_Z (g ax))%Q.
  { apply Qmult_le_0_compat; [lra|assumption]. }
  lra.
Qed.

(** For a positive capacity and duration, a log whose sample times do not
    decrease and whose samples lie in [0, capacity] gives a utilization
    between 0 and the time the log covers divided by the duration. *)
Theorem calc_utilization_bounds (r : Resource) (duration : Q)
  (Hcap : 0 < capacity r) (Hd : (0 < duration)%Q)
  (Hsorted : Sorted (fun x y => (fst x <= fst y)%Q) (availability_log r))
  (Hrange : Forall (fun s => 0 <= snd s <= capacity r) (availability_log r)) :
  exists u, calc_utilization r duration = Ok u /\
  (0 <= u)%Q /\ (u <= log_span (availability_log r) / duration)%Q.
Proof.
  assert (Hc : (0 < inject_Z (capacity r))%Q) by (unfold Qlt; simpl; lia).
  assert (Hm : (0 < inject_Z (capacity r) * duration)%Q)
    by (apply Qmult_lt_0_compat; assumption).
  unfold calc_utilization.
  destruct (Qeq_bool _ 0) eqn:Hq.
  { apply Qeq_bool_iff in Hq. rewrite Hq in Hm. apply Qlt_irrefl in Hm. contradiction. }
  eexists. split; [reflexivity|].
  change (fold_left (fun acc '((t1, a1), (t2, _)) =>
            (acc + (t2 - t1) * inject_Z a1)%Q)
            (adjacent_samples (availability_log r)) 0%Q)
    with (fold_left (step_integral (fun a => a))
            (adjacent_samples (availability_log r)) 0%Q).
  pose proof (integrals_sum_to_span (capacity r) (availability_log r)) as Hsum.
  pose proof (step_integral_nonneg (fun a => a) _ Hsorted
                (Forall_impl _ _ _ Hrange (fun s H => proj1 H))) as H1.
  pose proof (step_integral_nonneg (fun a => (capacity r - a)%Z) _ Hsorted
                (Forall_impl _ _ _ Hrange (fun s H => proj2 (Z.le_0_sub _ _) (proj2 H))))
    as H2.
  set (F1 := fold_left (step_integral (fun a => a)) (adjacent_samples (availability_log r)) 0%Q)
    in *.
  set (F2 := fold_left (step_integral (fun a => (capacity r - a)%Z))
               (adjacent_samples (availability_log r)) 0%Q) in *.
  set (S := log_span (availability_log r)) in *.
  set (C := inject_Z (capacity r)) in *.
  split.
  - apply Qle_shift_div_l; [exact Hm|]. lra.
  - apply Qle_shift_div_r; [exact Hm|].
    assert (Hsd : (S / duration * (C * duration) == C * S)%Q).
    { field. intros H. rewrite H in Hd. apply Qlt_irrefl in Hd. exact Hd. }
    rewrite Hsd. lra.
Qed.

Lemma calc_utilization_bounds_witness :
  exists u, calc_utilization busy_then_idle 10 = Ok u /\
  (0 <= u)%Q /\ (u <= log_span (availability_log busy_then_idle) / 10)%Q.
Proof.
  apply calc_utilization_bounds.
  - reflexivity.
  - reflexivity.
  - simpl. repeat constructor. unfold Qle. simpl. lia.
  - simpl. repeat constructor; simpl; lia.
Defined.

(* ------------------------------------------------------------------ *)
(** ** BatchModule.ingest_entity: the ANY branch and the match count *)

(** An any-type Batch module never raises on a plain entity: when the
    queue holds fewer than [batch_size - 1] waiters it appends the arrival;
    otherwise it returns one Batch event at the ingest time whose batch is
    the arrival followed by the first [batch_size - 1] waiters, in queue
    order, and those waiters followed by the new queue are the old queue. *)
Theorem batch_any_takes_queue_front (m : BatchModule) (e : Entity) (t : Q)
  (Htype : batch_type m = ANY) :
  match batch_ingest_entity m (AsEntity e) t with
  | Ok (m', []) =>
      Z.of_nat (length (batch_queue m)) < batch_size m - 1 /\
      batch_queue m' = (batch_queue m ++ [(e, t)])%list
  | Ok (m', [ev]) =>
      exists taken, ev = batch_event m e t ((e, t) :: taken) /\
      (taken ++ batch_queue m')%list = batch_queue m /\
      length taken = Z.to_nat (batch_size m - 1)
  | _ => False
  end.
Proof.
  unfold batch_ingest_entity. rewrite Htype.
  destruct (Z.of_nat (length (batch_queue m)) >=? batch_size m - 1) eqn:H.
  - apply Z.geb_le in H.
    exists (firstn (Z.to_nat (batch_size m - 1)) (batch_queue m)).
    split; [reflexivity|]. split; [apply firstn_skipn|].
    apply firstn_length_le. lia.
  - split; [|reflexivity]. rewrite Z.geb_leb in H. apply Z.leb_gt in H. lia.
Qed.

Lemma batch_any_takes_queue_front_witness :
  batch_type batch_any2 = ANY /\
  match batch_ingest_entity batch_any2 (AsEntity (untagged 2)) 3 with
  | Ok (m', []) =>
      Z.of_nat (length (batch_queue batch_any2)) < batch_size batch_any2 - 1 /\
      batch_queue m' = (batch_queue batch_any2 ++ [(untagged 2, 3%Q)])%list
  | Ok (m', [ev]) =>
      exists taken, ev = batch_event batch_any2 (untagged 2) 3 ((untagged 2, 3%Q) :: taken) /\
      (taken ++ batch_queue m')%list = batch_queue batch_any2 /\
      length taken = Z.to_nat (batch_size batch_any2 - 1)
  | _ => False
  end.
Proof.
  split; [reflexivity|].
  exact (batch_any_takes_queue_front batch_any2 (untagged 2) 3 eq_refl).
Defined.

Lemma count_matches_cons (k : option string) (e qe : Entity) (x : Q)
  (q : list (Entity * Q)) :
  count_matches k e ((qe, x) :: q) =
  ((if attr_match k qe e then 1 else 0) + count_matches k e q)%nat.
Proof. unfold count_matches. simpl. destruct (attr_match k qe e); reflexivity. Qed.

(** The scan stops after [needed] matches when the queue has that many,
    and otherwise ends with [needed] lowered by the number of matches. *)
Lemma scan_matches_count (k : option string) (e : Entity)
  (q : list (Entity * Q)) (i : nat) (n : Z) (acc : list nat) :
  0 < n ->
  (Z.of_nat (count_matches k e q) < n ->
   fst (scan_matches k e q i n acc) = n - Z.of_nat (count_matches k e q)) /\
  (n <= Z.of_nat (count_matches k e q) ->
   fst (scan_matches k e q i n acc) = 0 /\
   length (snd (scan_matches k e q i n acc)) = (length acc + Z.to_nat n)%nat).
Proof.
  revert i n acc. induction q as [|[qe x] q IH]; intros i n acc Hn.
  - unfold count_matches. simpl. split; [lia|lia].
  - rewrite count_matches_cons. simpl.
    destruct (attr_match k qe e) eqn:Hm.
    + destruct (n - 1 =? 0) eqn:Hz.
      * apply Z.eqb_eq in Hz. simpl. split; [lia|].
        intros _. split; [lia|]. rewrite length_app. simpl. lia.
      * apply Z.eqb_neq in Hz.
        destruct (IH (S i) (n - 1) (acc ++ [i])%list ltac:(lia)) as [H1 H2].
        split.
        -- intros H. rewrite H1 by lia. lia.
        -- intros H. destruct (H2 ltac:(lia)) as [-> ->]. split; [reflexivity|].
           rewrite length_app. simpl. lia.
    + simpl. apply IH. exact Hn.
Qed.

Lemma del_all_raises_index_error {A} (q : list A) (idx : list nat) (x : Exc) :
  del_all q idx = Raise x -> x = IndexError.
Proof.
  revert q. induction idx as [|i idx IH]; intros q; simpl; [discriminate|].
  unfold del_at. destruct (Nat.ltb i (length q)); simpl; [apply IH|congruence].
Qed.

(** An attribute Batch module with [batch_size >= 2] appends a plain
    arriving entity to its queue, returning no event, exactly when fewer
    than [batch_size - 1] waiters match it; when enough match it returns
    one Batch event at the ingest time holding [batch_size] entities, or
    raises [IndexError]. *)
Theorem batch_attribute_batches_iff_enough_matches (m : BatchModule) (e : Entity)
  (t : Q) (Htype : batch_type m = ATTRIBUTE) (Hsize : 2 <= batch_size m) :
  (Z.of_nat (count_matches (batch_attr m) e (batch_queue m)) < batch_size m - 1 ->
   batch_ingest_entity m (AsEntity e) t =
     Ok (set_batch_queue m (batch_queue m ++ [(e, t)])%list, [])) /\
  (batch_size m - 1 <= Z.of_nat (count_matches (batch_attr m) e (batch_queue m)) ->
   match batch_ingest_entity m (AsEntity e) t with
   | Ok (_, [ev]) =>
       exists bes, ev = batch_event m e t bes /\
       length bes = Z.to_nat (batch_size m)
   | Ok _ => False
   | Raise x => x = IndexError
   end).
Proof.
  unfold batch_ingest_entity. rewrite Htype.
  destruct (scan_matches_count (batch_attr m) e (batch_queue m) 0 (batch_size m - 1) []
              ltac:(lia)) as [H1 H2].
  destruct (scan_matches (batch_attr m) e (batch_queue m) 0 (batch_size m - 1) [])
    as [needed idx]. simpl in H1, H2.
  split.
  - intros H. rewrite (H1 H).
    destruct (batch_size m - 1 - _ =? 0) eqn:Hz; [apply Z.eqb_eq in Hz; lia|reflexivity].
  - intros H. destruct (H2 H) as [-> Hlen]. simpl.
    destruct (del_all (batch_queue m) idx) as [q'|x] eqn:Hd; simpl.
    + eexists. split; [reflexivity|]. simpl. rewrite length_map, Hlen. lia.
    + exact (del_all_raises_index_error _ _ _ Hd).
Qed.

Lemma batch_attribute_batches_iff_enough_matches_witness :
  batch_type batch3 = ATTRIBUTE /\ 2 <= batch_size batch3 /\
  batch_ingest_entity batch3 (AsEntity (tagged 4 8)) 4 =
    Ok (set_batch_queue batch3 (batch_queue batch3 ++ [(tagged 4 8, 4%Q)])%list, []).
Proof.
  split; [reflexivity|]. split; [vm_compute; discriminate|].
  apply (proj1 (batch_attribute_batches_iff_enough_matches batch3 (tagged 4 8) 4
                  eq_refl ltac:(vm_compute; discriminate))).
  vm_compute. reflexivity.
Defined.

Lemma scan_matches_negative (k : option string) (e : Entity)
  (q : list (Entity * Q)) (i : nat) (n : Z) (acc : list nat) :
  n < 0 -> fst (scan_matches k e q i n acc) < 0.
Proof.
  revert i n acc. induction q as [|[qe x] q IH]; intros i n acc Hn; simpl; [exact Hn|].
  destruct (attr_match k qe e).
  - destruct (n - 1 =? 0) eqn:Hz; [apply Z.eqb_eq in Hz; lia|apply IH; lia].
  - apply IH. exact Hn.
Qed.

Lemma scan_matches_zero (k : option string) (e : Entity)
  (q : list (Entity * Q)) (i : nat) (acc : list nat) :
  (count_matches k e q = 0%nat -> scan_matches k e q i 0 acc = (0, acc)) /\
  ((0 < count_matches k e q)%nat -> fst (scan_matches k e q i 0 acc) < 0).
Proof.
  revert i acc. induction q as [|[qe x] q IH]; intros i acc.
  - unfold count_matches. simpl. split; [reflexivity|lia].
  - rewrite count_matches_cons. simpl.
    destruct (attr_match k qe e).
    + split; [lia|]. intros _. simpl. apply scan_matches_negative. lia.
    + simpl. apply IH.
Qed.

(** An attribute Batch module with [batch_size <= 0] always appends a plain
    arriving entity to its queue; with [batch_size = 1] it forms a batch of
    the arrival alone when no waiter matches it, and appends it to the
    queue as soon as one waiter matches. *)
Theorem batch_attribute_size_below_two (m : BatchModule) (e : Entity) (t : Q)
  (Htype : batch_type m = ATTRIBUTE) :
  (batch_size m <= 0 ->
   batch_ingest_entity m (AsEntity e) t =
     Ok (set_batch_queue m (batch_queue m ++ [(e, t)])%list, [])) /\
  (batch_size m = 1 -> count_matches (batch_attr m) e (batch_queue m) = 0%nat ->
   batch_ingest_entity m (AsEntity e) t =
     Ok (set_batch_queue m (batch_queue m), [batch_event m e t [(e, t)]])) /\
  (batch_size m = 1 -> (0 < count_matches (batch_attr m) e (batch_queue m))%nat ->
   batch_ingest_entity m (AsEntity e) t =
     Ok (set_batch_queue m (batch_queue m ++ [(e, t)])%list, [])).
Proof.
  unfold batch_ingest_entity. rewrite Htype. split; [|split].
  - intros Hs.
    pose proof (scan_matches_negative (batch_attr m) e (batch_queue m) 0
                  (batch_size m - 1) [] ltac:(lia)) as H.
    destruct (scan_matches _ _ _ _ _ _) as [needed idx]. simpl in H.
    destruct (needed =? 0) eqn:Hz; [apply Z.eqb_eq in Hz; lia|reflexivity].
  - intros Hs Hc. rewrite Hs. change (1 - 1) with 0.
    rewrite (proj1 (scan_matches_zero (batch_attr m) e (batch_queue m) 0 []) Hc).
    reflexivity.
  - intros Hs Hc. rewrite Hs.
    pose proof (proj2 (scan_matches_zero (batch_attr m) e (batch_queue m) 0 []) Hc) as H.
    change (1 - 1) with 0.
    destruct (scan_matches _ _ _ _ _ _) as [needed idx]. simpl in H.
    destruct (needed =? 0) eqn:Hz; [apply Z.eqb_eq in Hz; lia|reflexivity].
Qed.

Lemma batch_attribute_size_below_two_witness :
  batch_type batch1 = ATTRIBUTE /\
  batch_ingest_entity batch1 (AsEntity (untagged 2)) 5 =
    Ok (set_batch_queue batch1 (batch_queue batch1),
        [batch_event batch1 (untagged 2) 5 [(untagged 2, 5%Q)]]).
Proof.
  split; [reflexivity|].
  apply (proj1 (proj2 (batch_attribute_size_below_two batch1 (untagged 2) 5 eq_refl)));
    vm_compute; reflexivity.
Defined.

Lemma scan_matches_all (k : option string) (e : Entity)
  (q : list (Entity * Q)) (i : nat) (acc : list nat) :
  Forall (fun p => attr_match k (fst p) e = true) q -> (0 < length q)%nat ->
  scan_matches k e q i (Z.of_nat (length q)) acc = (0, acc ++ seq i (length q))%list.
Proof.
  revert i acc. induction q as [|[qe x] q IH]; intros i acc Hall Hlen;
    [simpl in Hlen; lia|].
  inversion Hall as [|? ? Hm Hall']; subst. simpl in Hm |- *. rewrite Hm.
  destruct q as [|y q'].
  - reflexivity.
  - replace (Z.of_nat (S (length (y :: q'))) - 1) with (Z.of_nat (length (y :: q')))
      by lia.
    replace (Z.of_nat (length (y :: q')) =? 0) with false
      by (symmetry; apply Z.eqb_neq; simpl; lia).
    rewrite IH by (auto; simpl; lia).
    rewrite <- app_assoc. reflexivity.
Qed.

(** Deleting the indices [j, j+1, ..., j+m-1] one after the other, each
    deletion shifting the later elements, runs past the end of a list no
    longer than [j + 2 (m - 1)]. *)
Lemma del_all_seq_raises {A} (m j : nat) (q : list A) :
  (0 < m)%nat -> (length q <= j + 2 * (m - 1))%nat ->
  del_all q (seq j m) = Raise IndexError.
Proof.
  revert j q. induction m as [|m IH]; intros j q Hm Hlen; [lia|].
  simpl. unfold del_at. destruct (Nat.ltb j (length q)) eqn:Hj; [|reflexivity].
  apply Nat.ltb_lt in Hj. simpl.
  destruct m as [|m]; [lia|].
  apply IH; [lia|].
  rewrite length_app, length_take, length_drop. lia.
Qed.

(** An attribute Batch module whose queue holds exactly [batch_size - 1]
    waiters, at least two, all matching the arriving entity, raises
    [IndexError]: the deletions shift the queue and run past its end. *)
Theorem batch_attribute_all_matching_raises (m : BatchModule) (e : Entity) (t : Q)
  (Htype : batch_type m = ATTRIBUTE)
  (Hall : Forall (fun p => attr_match (batch_attr m) (fst p) e = true) (batch_queue m))
  (Hsize : batch_size m = Z.of_nat (length (batch_queue m)) + 1)
  (Hlen : (2 <= length (batch_queue m))%nat) :
  batch_ingest_entity m (AsEntity e) t = Raise IndexError.
Proof.
  unfold batch_ingest_entity. rewrite Htype, Hsize.
  replace (Z.of_nat (length (batch_queue m)) + 1 - 1)
    with (Z.of_nat (length (batch_queue m))) by lia.
  rewrite (scan_matches_all _ _ _ 0 [] Hall ltac:(lia)). simpl.
  rewrite (del_all_seq_raises (length (batch_queue m)) 0 (batch_queue m)) by lia.
  reflexivity.
Qed.

Lemma batch_attribute_all_matching_raises_witness :
  batch_type batch_pair = ATTRIBUTE /\
  Forall (fun p => attr_match (batch_attr batch_pair) (fst p) (tagged 3 7) = true)
    (batch_queue batch_pair) /\
  batch_size batch_pair = Z.of_nat (length (batch_queue batch_pair)) + 1 /\
  (2 <= length (batch_queue batch_pair))%nat /\
  batch_ingest_entity batch_pair (AsEntity (tagged 3 7)) 3 = Raise IndexError.
Proof.
  assert (Hall : Forall (fun p => attr_match (batch_attr batch_pair) (fst p) (tagged 3 7) = true)
                   (batch_queue batch_pair)).
  { constructor; [vm_compute; reflexivity|].
    constructor; [vm_compute; reflexivity|constructor]. }
  split; [reflexivity|]. split; [exact Hall|].
  split; [reflexivity|]. split; [simpl; lia|].
  exact (batch_attribute_all_matching_raises batch_pair (tagged 3 7) 3 eq_refl Hall
           eq_refl ltac:(simpl; lia)).
Defined.

(* ------------------------------------------------------------------ *)
(** ** Environment.run_simulation: what the loop processes and leaves *)

Lemma loop_step_next_wf
  (invoke : Event -> Result (list Event * gmap string Val))
  (duration : Q) (env env' : Environment) (e : Event) (rest : list QueuedEvent) :
  Forall entry_wf (event_queue env) ->
  loop_step invoke duration env = Next env' e rest ->
  Forall entry_wf (event_queue env').
Proof.
  intros Hwf Hs. pose proof (loop_step_cases invoke duration env) as Hc.
  rewrite Hs in Hc. destruct Hc as (t & i & evs & upd & Hpop & _ & ->).
  destruct (heappop_popped_before _ _ _ _ _ Hwf Hpop) as (_ & _ & Hrest & _).
  rewrite add_events_app. apply Forall_app. split; [exact Hrest|].
  apply Forall_forall. intros y Hy. apply list_elem_of_In in Hy.
  apply in_map_iff in Hy. destruct Hy as (e'' & <- & _). split; reflexivity.
Qed.

Lemma add_events_nil_wf (arrivals : list Event) :
  Forall entry_wf (add_events [] arrivals).
Proof.
  rewrite add_events_app. simpl.
  apply Forall_forall. intros y Hy. apply list_elem_of_In in Hy.
  apply in_map_iff in Hy. destruct Hy as (e & <- & _). split; reflexivity.
Qed.

Lemma run_loop_finished_later
  (invoke : Event -> Result (list Event * gmap string Val))
  (duration : Q) (fuel : nat) :
  forall env env', Forall entry_wf (event_queue env) ->
  fst (run_loop invoke fuel duration env) = Finished env' ->
  Forall (fun x : QueuedEvent => let '(_, _, e) := x in (duration < event_time e)%Q)
    (event_queue env').
Proof.
  induction fuel as [|fuel IH]; intros env env' Hwf Hfin; simpl in Hfin;
    [discriminate|].
  destruct (loop_step invoke duration env) as [|x e rest|env'' e rest] eqn:Hs.
  - injection Hfin as <-.
    apply loop_step_exit_iff in Hs.
    destruct Hs as [Hq|(t & i & e & rest & Hpop & Hlt)]; [rewrite Hq; constructor|].
    destruct (heappop_popped_before _ _ _ _ _ Hwf Hpop) as (Hperm & _ & _ & Hpb).
    apply Forall_forall. intros [[t' i'] e'] Hy.
    apply list_elem_of_In in Hy. apply (Permutation_in _ Hperm) in Hy.
    destruct Hy as [Hy|Hy]; [injection Hy as <- <- <-; exact Hlt|].
    rewrite Forall_forall in Hpb. apply list_elem_of_In in Hy.
    destruct (Hpb _ Hy) as [Hle _]. exact (Qlt_le_trans _ _ _ Hlt Hle).
  - discriminate.
  - pose proof (loop_step_next_wf _ _ _ _ _ _ Hwf Hs) as Hwf'.
    destruct (run_loop invoke fuel duration env'') as [o tr] eqn:Hr.
    simpl in Hfin. subst o.
    apply (IH env'' env' Hwf'). rewrite Hr. reflexivity.
Qed.

(** When [run_simulation] finishes, every event left in its heap is later
    than [duration]. *)
Theorem run_simulation_leaves_later_events
  (invoke : Event -> Result (list Event * gmap string Val))
  (duration : Q) (arrivals : list Event) (fuel : nat) (env : Environment)
  (Hfin : fst (run_simulation invoke duration arrivals fuel) = Finished env) :
  Forall (fun x : QueuedEvent => let '(_, _, e) := x in (duration < event_time e)%Q)
    (event_queue env).
Proof.
  exact (run_loop_finished_later invoke duration fuel
           (mkEnvironment (add_events [] arrivals) ∅) env (add_events_nil_wf arrivals) Hfin).
Qed.

Lemma run_simulation_leaves_later_events_witness :
  fst (run_simulation no_new_events 10 [arrival7; late_arrival] 5) =
    Finished (mkEnvironment [(20%Q, 8%nat, late_arrival)] ∅) /\
  Forall (fun x : QueuedEvent => let '(_, _, e) := x in (10 < event_time e)%Q)
    [(20%Q, 8%nat, late_arrival)].
Proof.
  assert (H : fst (run_simulation no_new_events 10 [arrival7; late_arrival] 5) =
                Finished (mkEnvironment [(20%Q, 8%nat, late_arrival)] ∅))
    by (vm_compute; reflexivity).
  split; [exact H|].
  exact (run_simulation_leaves_later_events no_new_events 10 [arrival7; late_arrival] 5
           _ H).
Defined.

(* ------------------------------------------------------------------ *)
(** ** generators.py: the bounded arrival generators *)

Section BoundedGenerator.
Variable fadd : Q -> Q -> Q.
Hypothesis fadd_not_below : forall t d, (0 <= d)%Q -> (t <= fadd t d)%Q.

Lemma agg_generator_bounded_nonneg (draws : list Q) (time end_time : Q) :
  Forall (fun d => 0 <= d)%Q draws ->
  Sorted Qle (agg_generator_bounded fadd draws time end_time) /\
  Forall (fun x => time <= x <= end_time)%Q
    (agg_generator_bounded fadd draws time end_time).
Proof.
  revert time. induction draws as [|d draws IH]; intros time Hd; simpl;
    [split; constructor|].
  inversion Hd as [|? ? Hd0 Hd']; subst.
  pose proof (fadd_not_below time d Hd0) as Hup.
  destruct (Qltb time end_time); [|split; constructor].
  destruct (IH (fadd time d) Hd') as [Hs Hr].
  destruct (Qle_bool (fadd time d) end_time) eqn:Hle.
  - apply Qle_bool_iff in Hle. split.
    + constructor; [exact Hs|].
      destruct (agg_generator_bounded fadd draws (fadd time d) end_time) as [|y l];
        constructor.
      inversion Hr; subst. tauto.
    + constructor; [split; lra|].
      apply (Forall_impl _ _ _ Hr). intros x Hx. split; lra.
  - split; [exact Hs|]. apply (Forall_impl _ _ _ Hr). intros x Hx. split; lra.
Qed.
End BoundedGenerator.

(** When the float addition never makes [time] smaller on a non-negative
    draw (rounding to nearest does not: [time] is a float and the exact
    sum is at least [time]), and every draw is non-negative, the bounded
    generators yield times in [start_time, end_time] in non-decreasing
    order, over as many iterations as the loop runs. *)
Theorem agg_generator_bounded_sorted (fadd : Q -> Q -> Q)
  (Hadd : forall t d, (0 <= d)%Q -> (t <= fadd t d)%Q)
  (draws : list Q) (start_time end_time : Q)
  (Hd : Forall (fun d => 0 <= d)%Q draws) :
  Sorted Qle (agg_generator_bounded fadd draws start_time end_time) /\
  Forall (fun x => start_time <= x <= end_time)%Q
    (agg_generator_bounded fadd draws start_time end_time).
Proof.
  exact (agg_generator_bounded_nonneg fadd Hadd draws start_time end_time Hd).
Qed.

Lemma agg_generator_bounded_sorted_witness :
  (forall t d, (0 <= d)%Q -> (t <= Qplus t d)%Q) /\
  Forall (fun d => 0 <= d)%Q [1; 0; 2; 1]%Q /\
  agg_generator_bounded Qplus [1; 0; 2; 1]%Q 0 3 = [1; 1; 3]%Q /\
  Sorted Qle (agg_generator_bounded Qplus [1; 0; 2; 1]%Q 0 3) /\
  Forall (fun x => 0 <= x <= 3)%Q (agg_generator_bounded Qplus [1; 0; 2; 1]%Q 0 3).
Proof.
  assert (Ha : forall t d, (0 <= d)%Q -> (t <= Qplus t d)%Q) by (intros; lra).
  assert (Hd : Forall (fun d => 0 <= d)%Q [1; 0; 2; 1]%Q)
    by (repeat constructor; discriminate).
  split; [exact Ha|]. split; [exact Hd|]. split; [vm_compute; reflexivity|].
  exact (agg_generator_bounded_sorted Qplus Ha [1; 0; 2; 1]%Q 0 3 Hd).
Defined.

(* ------------------------------------------------------------------ *)
(** ** CreateModule.generate_arrivals and process_event *)

(** [generate_arrivals] returns one Create event per generated time, at
    that time and in that order, handled by the module; their entities are
    fresh (type [gen_entity_type], arrival time the event time, no
    attributes) and take the consecutive indices [c, c+1, ...], after
    which the counter has advanced by the number of arrivals. *)
Theorem generate_arrivals_fresh_entities (c mi : nat) (ty : string) (ts : list Q) :
  map event_time (fst (generate_arrivals c mi ty ts)) = ts /\
  map (fun ev => entity_ind (core (event_entity ev))) (fst (generate_arrivals c mi ty ts)) =
    seq c (length ts) /\
  snd (generate_arrivals c mi ty ts) = (c + length ts)%nat /\
  Forall (fun ev => event_name ev = "Create" /\ event_handler ev = ProcessEvent mi /\
                    event_attr ev = empty_attr /\
                    event_entity ev =
                      AsEntity (mkEntity ty (event_time ev)
                                  (entity_ind (core (event_entity ev))) ∅))
    (fst (generate_arrivals c mi ty ts)).
Proof.
  revert c. induction ts as [|t ts IH]; intros c; simpl.
  - repeat split; [lia|constructor].
  - specialize (IH (S c)).
    destruct (generate_arrivals (S c) mi ty ts) as [evs c'].
    simpl in IH |- *. destruct IH as (H1 & H2 & H3 & H4).
    rewrite H1, H2, H3. repeat split; [lia|].
    constructor; [repeat split|exact H4].
Qed.

Lemma trace_append_spec (sys_var : SysVar) (ind : nat) (label : string) (t : Q) :
  match trace_append sys_var ind label t with
  | Raise x => x = KeyError /\ sv_trace sys_var !! ind = None
  | Ok sv1 =>
      is_Some (sv_trace sys_var !! ind) /\ sv_metrics sv1 = sv_metrics sys_var /\
      (forall j, is_Some (sv_trace sv1 !! j) <-> is_Some (sv_trace sys_var !! j))
  end.
Proof.
  unfold trace_append. destruct (sv_trace sys_var !! ind) as [l|] eqn:Hl;
    [|split; reflexivity].
  simpl. split; [eexists; reflexivity|]. split; [reflexivity|]. intros j.
  destruct (decide (j = ind)) as [->|Hj].
  - rewrite lookup_insert_eq, Hl. split; intros _; eexists; reflexivity.
  - rewrite lookup_insert_ne by congruence. reflexivity.
Qed.

Lemma set_disposed_at_spec (sys_var : SysVar) (ind : nat) (t : Q) :
  match set_disposed_at sys_var ind t with
  | Raise x => x = KeyError /\ sv_metrics sys_var !! ind = None
  | Ok sv1 =>
      is_Some (sv_metrics sys_var !! ind) /\ sv_trace sv1 = sv_trace sys_var /\
      (forall j, is_Some (sv_metrics sv1 !! j) <-> is_Some (sv_metrics sys_var !! j)) /\
      disposed_at_is sv1 t ind /\
      (forall t' j, j <> ind -> disposed_at_is sys_var t' j -> disposed_at_is sv1 t' j)
  end.
Proof.
  unfold set_disposed_at. destruct (sv_metrics sys_var !! ind) as [m|] eqn:Hm;
    [|split; reflexivity].
  simpl. split; [eexists; reflexivity|]. split; [reflexivity|]. split; [|split].
  - intros j. destruct (decide (j = ind)) as [->|Hj].
    + rewrite lookup_insert_eq, Hm. split; intros _; eexists; reflexivity.
    + rewrite lookup_insert_ne by congruence. reflexivity.
  - eexists. split; [apply lookup_insert_eq|reflexivity].
  - intros t' j Hj (m' & Hm' & Hd). exists m'. split; [|exact Hd].
    simpl. rewrite lookup_insert_ne by congruence. exact Hm'.
Qed.

Lemma disposed_at_is_trace (sv sv' : SysVar) (t : Q) (j : nat) :
  sv_metrics sv' = sv_metrics sv -> disposed_at_is sv t j -> disposed_at_is sv' t j.
Proof. intros H. unfold disposed_at_is. rewrite H. tauto. Qed.

Lemma dispose_constituents_spec (label : string) (t : Q) (es : list Entity) :
  forall sys_var,
  (Forall (has_entity_rows sys_var) (map entity_ind es) ->
   exists sv', dispose_constituents label t sys_var es = Ok sv' /\
   Forall (disposed_at_is sv' t) (map entity_ind es) /\
   (forall j, disposed_at_is sys_var t j -> disposed_at_is sv' t j)) /\
  (~ Forall (has_entity_rows sys_var) (map entity_ind es) ->
   dispose_constituents label t sys_var es = Raise KeyError).
Proof.
  induction es as [|e es IH]; intros sv; simpl.
  - split; [intros _; exists sv; split; [reflexivity|split; [constructor|tauto]]|].
    intros H. exfalso. apply H. constructor.
  - pose proof (set_disposed_at_spec sv (entity_ind e) t) as Hs.
    destruct (set_disposed_at sv (entity_ind e) t) as [sv1|x] eqn:Hsd; simpl.
    + destruct Hs as (Hsome1 & Htr1 & Hkeys1 & Hdisp1 & Hkeep1).
      pose proof (trace_append_spec sv1 (entity_ind e) label t) as Ht.
      destruct (trace_append sv1 (entity_ind e) label t) as [sv2|x] eqn:Hta; simpl.
      * destruct Ht as (Hsome2 & Hm2 & Hkeys2).
        assert (Hrows : forall j, has_entity_rows sv2 j <-> has_entity_rows sv j).
        { intros j. unfold has_entity_rows. rewrite Hm2, Hkeys2, Hkeys1, Htr1. reflexivity. }
        destruct (IH sv2) as [IH1 IH2]. split.
        -- intros Hall. inversion Hall as [|? ? He Hall']; subst.
           destruct IH1 as (sv' & Hd & Hf & Hk).
           { apply (Forall_impl _ _ _ Hall'). intros j Hj. apply Hrows. exact Hj. }
           exists sv'. split; [exact Hd|]. split.
           ++ constructor; [|exact Hf]. apply Hk.
              exact (disposed_at_is_trace _ _ _ _ Hm2 Hdisp1).
           ++ intros j Hj. apply Hk. apply (disposed_at_is_trace _ _ _ _ Hm2).
              destruct (decide (j = entity_ind e)) as [->|Hne]; [exact Hdisp1|].
              exact (Hkeep1 _ _ Hne Hj).
        -- intros Hn. apply IH2. intros Hall. apply Hn. constructor.
           ++ split; [exact Hsome1|rewrite <- Htr1; exact Hsome2].
           ++ apply (Forall_impl _ _ _ Hall). intros j Hj. apply Hrows. exact Hj.
      * destruct Ht as [-> Hnone]. split; [|reflexivity].
        intros Hall. inversion Hall as [|? ? [_ He] _]; subst. exfalso.
        rewrite <- Htr1, Hnone in He. destruct He as [? He]. discriminate.
    + destruct Hs as [-> Hnone]. split; [|reflexivity].
      intros Hall. inversion Hall as [|? ? [He _] _]; subst. exfalso.
      rewrite Hnone in He. destruct He as [? He]. discriminate.
Qed.

Lemma dispose_process_event_as_constituents (name : string) (e : Event) (sv : SysVar) :
  dispose_process_event name e sv =
  (sv' <- dispose_constituents ("Exit " ++ name) (event_time e) sv
            (core (event_entity e) :: match event_entity e with
                                      | AsBatchEntity _ bs => bs
                                      | AsEntity _ => []
                                      end) ;;
   Ok ([], sv')).
Proof.
  unfold dispose_process_event. cbn [dispose_constituents].
  destruct (set_disposed_at sv _ _) as [sv1|x]; simpl; [|reflexivity].
  destruct (trace_append sv1 _ _ _) as [sv2|x]; simpl; [|reflexivity].
  destruct (event_entity e) as [x|x bs]; simpl; [reflexivity|].
  destruct (dispose_constituents _ _ sv2 bs); reflexivity.
Qed.

(** [DisposeModule.process_event] schedules nothing. When every entity it
    touches (the event's entity and, for a batch, each constituent) has a
    metrics row and a trace, it records [Disposed At = event_time] for all
    of them; otherwise it raises [KeyError]. *)
Theorem dispose_process_event_marks_disposed (name : string) (e : Event) (sv : SysVar) :
  (Forall (has_entity_rows sv) (disposed_inds (event_entity e)) ->
   exists sv', dispose_process_event name e sv = Ok ([], sv') /\
   Forall (disposed_at_is sv' (event_time e)) (disposed_inds (event_entity e))) /\
  (~ Forall (has_entity_rows sv) (disposed_inds (event_entity e)) ->
   dispose_process_event name e sv = Raise KeyError).
Proof.
  rewrite dispose_process_event_as_constituents.
  assert (Hinds : disposed_inds (event_entity e) =
                  map entity_ind (core (event_entity e) ::
                                  match event_entity e with
                                  | AsBatchEntity _ bs => bs
                                  | AsEntity _ => []
                                  end)).
  { unfold disposed_inds. destruct (event_entity e); reflexivity. }
  rewrite Hinds.
  destruct (dispose_constituents_spec ("Exit " ++ name) (event_time e)
              (core (event_entity e) :: match event_entity e with
                                        | AsBatchEntity _ bs => bs
                                        | AsEntity _ => []
                                        end) sv) as [H1 H2].
  split.
  - intros Hall. destruct (H1 Hall) as (sv' & Hd & Hf & _).
    exists sv'. rewrite Hd. split; [reflexivity|exact Hf].
  - intros Hn. rewrite (H2 Hn). reflexivity.
Qed.

Lemma dispose_process_event_marks_disposed_witness :
  Forall (has_entity_rows sys_var7) (disposed_inds (event_entity arrival7)) /\
  exists sv', dispose_process_event "Dispose 1" arrival7 sys_var7 = Ok ([], sv') /\
  Forall (disposed_at_is sv' (event_time arrival7)) (disposed_inds (event_entity arrival7)).
Proof.
  assert (H : Forall (has_entity_rows sys_var7) (disposed_inds (event_entity arrival7))).
  { constructor; [|constructor]. split; eexists; reflexivity. }
  split; [exact H|].
  exact (proj1 (dispose_process_event_marks_disposed "Dispose 1" arrival7 sys_var7) H).
Defined.

(** [CreateModule.process_event] raises only what the next module's
    [ingest_entity] raises, and returns that module's events. It
    (re)initialises the entity's row: all times 0, [Created At] the event
    time, no [Disposed At], and a trace holding only the exit from this
    module; the rows of other entities and the variables are untouched. *)
Theorem create_process_event_resets_entity (name : string)
  (next_ingest_entity : AnyEntity -> Q -> Result (list Event))
  (e : Event) (sv : SysVar) :
  match create_process_event name next_ingest_entity e sv with
  | Ok (evs, sv') =>
      next_ingest_entity (event_entity e) (event_time e) = Ok evs /\
      sv_metrics sv' !! entity_ind (core (event_entity e)) =
        Some (mkMetrics (entity_type (core (event_entity e))) 0 0 0 0 0
                (Some (event_time e)) None) /\
      sv_trace sv' !! entity_ind (core (event_entity e)) =
        Some [("Exit " ++ name, event_time e)] /\
      (forall j, j <> entity_ind (core (event_entity e)) ->
       sv_metrics sv' !! j = sv_metrics sv !! j /\ sv_trace sv' !! j = sv_trace sv !! j) /\
      sv_variables sv' = sv_variables sv
  | Raise x => next_ingest_entity (event_entity e) (event_time e) = Raise x
  end.
Proof.
  unfold create_process_event, init_sys_var_entity, set_created_at, trace_append.
  cbn [sv_metrics sv_trace sv_variables].
  rewrite lookup_insert_eq. cbn [bind sv_metrics sv_trace sv_variables].
  rewrite lookup_insert_eq. cbn [bind].
  destruct (next_ingest_entity (event_entity e) (event_time e)) as [evs|x];
    cbn [bind]; [|reflexivity].
  split; [reflexivity|].
  cbn [sv_metrics sv_trace sv_variables].
  split; [rewrite lookup_insert_eq; reflexivity|].
  split; [rewrite lookup_insert_eq; reflexivity|].
  split; [|reflexivity].
  intros j Hj. rewrite !lookup_insert_ne by congruence. split; reflexivity.
Qed.
